(** * Texture Wrap (magic_uv/op/texture_wrap.py)

    A shallow embedding of the two operators of the Texture Wrap feature,
    [MUV_OT_TextureWrap_Refer] and [MUV_OT_TextureWrap_Set], and the
    properties of the shared-edge UV propagation they implement.

    The operators work on a BMesh in edit mode.  Faces are identified by
    their position in [bm.faces] (their [index]), loops by their position
    in [face.loops], vertices by a number.  The UV of a loop is the value
    stored at [loop[uv_layer].uv]. *)

From Stdlib Require Import ZArith PrimFloat.
From stdpp Require Import base option list strings gmap.

(** ** The host's numerics

    Coordinates and UVs are [mathutils.Vector] values and lengths and dot
    products are Python floats.  Both belong to the host, so the embedding
    is parametric in them.  [diff_point_to_segment] is the helper of
    [common.py] that the operator calls; it is taken as an operation of the
    interface as well. *)

Class Mathutils := {
  scalar : Type;
  Vector : Type;
  (** [a + b], [a - b] and [v * s] on vectors *)
  vadd : Vector → Vector → Vector;
  vsub : Vector → Vector → Vector;
  vmul : Vector → scalar → Vector;
  (** [a.dot(b)] and [v.length] *)
  vdot : Vector → Vector → scalar;
  vlength : Vector → scalar;
  (** the float [1.0], unary minus, [*] and [/] on floats *)
  fone : scalar;
  fneg : scalar → scalar;
  fmul : scalar → scalar → scalar;
  fdiv : scalar → scalar → scalar;
  (** [x == 0], which is also the test under which [/] raises *)
  fis_zero : scalar → bool;
  (** the sign bit of a float, as [math.copysign] reads it *)
  fsignbit : scalar → bool;
  (** [common.diff_point_to_segment(a, b, p)], returning [(xp, x)] *)
  diff_point_to_segment : Vector → Vector → Vector → Vector * Vector;
}.

(** ** Results of an operator *)

Inductive exn := IndexError | ZeroDivisionError | UnboundLocalError.

Inductive warning :=
  | W_NO_UV_MAP
  | W_SELECT_MORE_THAN_ONE
  | W_SELECT_ONLY_ONE
  | W_SELECT_DIFFERENT
  | W_OBJECT_SAME
  | W_TWO_SHARED
  | W_UNSHARED.

(** The text given to [self.report({'WARNING'}, ...)]. *)
Definition message (w : warning) : string :=
  match w with
  | W_NO_UV_MAP => "Object must have more than one UV map"
  | W_SELECT_MORE_THAN_ONE => "Must select more than one face"
  | W_SELECT_ONLY_ONE => "Must select only one face"
  | W_SELECT_DIFFERENT => "Must select different face"
  | W_OBJECT_SAME => "Object must be same"
  | W_TWO_SHARED => "2 vertices must be shared among faces"
  | W_UNSHARED => "More than 1 vertex must be unshared"
  end.

(** The warnings of the checks that look at the selection, the object and
    the UV layers, as opposed to those that look at the geometry. *)
Definition is_validation (w : warning) : bool :=
  match w with
  | W_NO_UV_MAP | W_SELECT_MORE_THAN_ONE | W_SELECT_ONLY_ONE
  | W_SELECT_DIFFERENT | W_OBJECT_SAME => true
  | W_TWO_SHARED | W_UNSHARED => false
  end.

(** A computation stops either through [report] followed by
    [return {'CANCELLED'}] or through an exception. *)
Inductive abort := Cancel (w : warning) | Raise (e : exn).

Inductive status := FINISHED | CANCELLED | RAISED (e : exn).

Global Instance exn_eq_dec : EqDecision exn.
Proof. solve_decision. Defined.
Global Instance warning_eq_dec : EqDecision warning.
Proof. solve_decision. Defined.
Global Instance abort_eq_dec : EqDecision abort.
Proof. solve_decision. Defined.
Global Instance status_eq_dec : EqDecision status.
Proof. solve_decision. Defined.

Global Instance abort_bind : MBind (sum abort) :=
  λ A B f x, match x with inl a => inl a | inr y => f y end.
Global Instance abort_ret : MRet (sum abort) := λ A x, inr x.

(** [xs[i]] on a Python sequence with a non-negative index. *)
Definition getitem {A} (xs : list A) (i : nat) : abort + A :=
  match xs !! i with
  | Some x => inr x
  | None => inl (Raise IndexError)
  end.

(** The position [xs[i]] reads for an integer index: a negative index
    counts from the end, anything out of range raises [IndexError]. *)
Definition index_position (len : nat) (i : Z) : abort + nat :=
  let k := if decide (i < 0)%Z then (i + Z.of_nat len)%Z else i in
  if decide (0 ≤ k < Z.of_nat len)%Z then inr (Z.to_nat k)
  else inl (Raise IndexError).

Section Model.
Context `{M : Mathutils}.

(** ** The mesh *)

Record BMLoop := { l_vert : nat; l_uv : Vector }.

Record BMFace := { f_select : bool; f_loops : list BMLoop }.

(** An entry of [bm.select_history]. *)
Inductive BMElem := BMVert (v : nat) | BMEdge (e : nat) | BMFaceRef (f : nat).

Global Instance BMElem_eq_dec : EqDecision BMElem.
Proof. solve_decision. Defined.

Record BMesh := {
  bm_faces : list BMFace;
  bm_uv_layers : nat;               (* len(bm.loops.layers.uv) *)
  bm_select_history : list BMElem;
  bm_co : nat → Vector;             (* vert.co *)
}.

(** [scene.muv_props.texture_wrap] *)
Record Props := { ref_face_index : Z; ref_obj : option nat }.

(** [_Properties.init_props] *)
Definition init_props : Props := {| ref_face_index := -1; ref_obj := None |}.

Record Scene := {
  muv_props : Props;
  muv_texture_wrap_set_and_refer : bool;
  muv_texture_wrap_selseq : bool;
}.

Record Outcome := {
  ret : status;
  reports : list string;
  out_bm : BMesh;
  out_props : Props;
}.

Definition cancelled (w : warning) (bm : BMesh) (props : Props) : Outcome :=
  {| ret := CANCELLED; reports := [message w]; out_bm := bm; out_props := props |}.

Definition raised (e : exn) (bm : BMesh) (props : Props) : Outcome :=
  {| ret := RAISED e; reports := []; out_bm := bm; out_props := props |}.

Definition finished (bm : BMesh) (props : Props) : Outcome :=
  {| ret := FINISHED; reports := []; out_bm := bm; out_props := props |}.

Definition face_verts (f : BMFace) : list nat := l_vert <$> f_loops f.

(** [loop[uv_layer].uv] of loop [l] of face [f] *)
Definition loop_uv (bm : BMesh) (f l : nat) : option Vector :=
  face ← bm_faces bm !! f; loop ← f_loops face !! l; Some (l_uv loop).

Definition set_uv (uv : Vector) (loop : BMLoop) : BMLoop :=
  {| l_vert := l_vert loop; l_uv := uv |}.

Definition alter_loops (g : list BMLoop → list BMLoop) (face : BMFace) : BMFace :=
  {| f_select := f_select face; f_loops := g (f_loops face) |}.

(** [loop[uv_layer].uv = uv] on loop [l] of face [f] *)
Definition write_uv (bm : BMesh) (f l : nat) (uv : Vector) : BMesh :=
  {| bm_faces := alter (alter_loops (alter (set_uv uv) l)) f (bm_faces bm);
     bm_uv_layers := bm_uv_layers bm;
     bm_select_history := bm_select_history bm;
     bm_co := bm_co bm |}.

(** [[f for f in bm.faces if f.select]], as face indices *)
Fixpoint selected_from (i : nat) (faces : list BMFace) : list nat :=
  match faces with
  | [] => []
  | f :: rest =>
      if f_select f then i :: selected_from (S i) rest
      else selected_from (S i) rest
  end.

Definition selected_faces (bm : BMesh) : list nat := selected_from 0 (bm_faces bm).

(** The faces of the selection history that are still selected. *)
Definition history_faces (bm : BMesh) : list nat :=
  omap (λ hist,
    match hist with
    | BMFaceRef f =>
        match bm_faces bm !! f with
        | Some face => if f_select face then Some f else None
        | None => None
        end
    | _ => None
    end) (bm_select_history bm).

(** ** Lines 184-211 and 236-248: shared and unshared vertices *)

Record CommonVert := { cv_vert : nat; cv_ref_loop : nat; cv_tgt_loop : nat }.
Record OtherVert := { ov_vert : nat; ov_loop : nat }.

(** The inner [for dl in tgt_face.loops] with its [break]: the position of
    the first loop on vertex [v], counting from [j]. *)
Fixpoint find_loop (v : nat) (j : nat) (loops : list BMLoop) : option nat :=
  match loops with
  | [] => None
  | dl :: rest =>
      if decide (v = l_vert dl) then Some j else find_loop v (S j) rest
  end.

Fixpoint common_verts_from (i : nat) (ref_loops tgt_loops : list BMLoop)
    : list CommonVert :=
  match ref_loops with
  | [] => []
  | sl :: rest =>
      match find_loop (l_vert sl) 0 tgt_loops with
      | Some j =>
          {| cv_vert := l_vert sl; cv_ref_loop := i; cv_tgt_loop := j |}
            :: common_verts_from (S i) rest tgt_loops
      | None => common_verts_from (S i) rest tgt_loops
      end
  end.

Definition get_common_verts (ref_face tgt_face : BMFace) : list CommonVert :=
  common_verts_from 0 (f_loops ref_face) (f_loops tgt_face).

(** The [for ci in common_verts: ... break ... else:] test. *)
Definition is_common (common_verts : list CommonVert) (v : nat) : bool :=
  bool_decide (v ∈ cv_vert <$> common_verts).

Fixpoint other_verts_from (i : nat) (loops : list BMLoop)
    (common_verts : list CommonVert) : list OtherVert :=
  match loops with
  | [] => []
  | sl :: rest =>
      if is_common common_verts (l_vert sl)
      then other_verts_from (S i) rest common_verts
      else {| ov_vert := l_vert sl; ov_loop := i |}
             :: other_verts_from (S i) rest common_verts
  end.

Definition get_other_verts (face : BMFace) (common_verts : list CommonVert)
    : list OtherVert :=
  other_verts_from 0 (f_loops face) common_verts.

(** ** Lines 213-234: the reference decomposition *)

(** [math.copysign(1, y)] *)
Definition copysign1 (y : scalar) : scalar :=
  if fsignbit y then fneg fone else fone.

(** [a / b] on Python floats *)
Definition truediv (a b : scalar) : abort + scalar :=
  if fis_zero b then inl (Raise ZeroDivisionError) else inr (fdiv a b).

(** [hdiff, x = common.diff_point_to_segment(a, b, p); vdiff = x - a] *)
Definition decompose (a b p : Vector) : Vector * Vector :=
  let '(hdiff, x) := diff_point_to_segment a b p in (hdiff, vsub x a).

Record Reference := {
  cv0 : Vector; cv1 : Vector;
  cuv0 : Vector; cuv1 : Vector;
  ref_hdiff : Vector; ref_vdiff : Vector;
}.

Definition is_degenerate (hv : Vector * Vector) : bool :=
  fis_zero (vlength hv.1) || fis_zero (vlength hv.2).

(** Lines 225-231. *)
Definition shared_edge (a b auv buv ov0 : Vector) : Reference :=
  let hv := decompose a b ov0 in
  if is_degenerate hv then
    let hv' := decompose b a ov0 in
    {| cv0 := b; cv1 := a; cuv0 := buv; cuv1 := auv;
       ref_hdiff := hv'.1; ref_vdiff := hv'.2 |}
  else
    {| cv0 := a; cv1 := b; cuv0 := auv; cuv1 := buv;
       ref_hdiff := hv.1; ref_vdiff := hv.2 |}.

(** ** Lines 251-266: the UV of an unshared vertex of the target *)

(** [math.copysign(1, v.dot(cv1 - cv0))] *)
Definition sign_factor (r : Reference) (v : Vector) : scalar :=
  copysign1 (vdot v (vsub (cv1 r) (cv0 r))).

Definition target_uv (r : Reference) (ref_uv_hdiff ref_uv_vdiff ov : Vector)
    : abort + Vector :=
  let '(tgt_hdiff, tgt_vdiff) := decompose (cv0 r) (cv1 r) ov in
  fact_v ← truediv (vlength tgt_vdiff) (vlength (ref_vdiff r));
  let fact_v := fmul fact_v (sign_factor r tgt_vdiff) in
  let fact_v := fmul fact_v (sign_factor r (ref_vdiff r)) in
  let duv_v := vmul ref_uv_vdiff fact_v in
  fact_h ← truediv (fneg (vlength tgt_hdiff)) (vlength (ref_hdiff r));
  let duv_h := vmul ref_uv_hdiff fact_h in
  mret (vadd (vadd (cuv0 r) duv_h) duv_v).

Fixpoint target_uvs (co : nat → Vector) (r : Reference)
    (ref_uv_hdiff ref_uv_vdiff : Vector) (tgt_other_verts : list OtherVert)
    : abort + list (OtherVert * Vector) :=
  match tgt_other_verts with
  | [] => mret []
  | info :: rest =>
      uv ← target_uv r ref_uv_hdiff ref_uv_vdiff (co (ov_vert info));
      uvs ← target_uvs co r ref_uv_hdiff ref_uv_vdiff rest;
      mret ((info, uv) :: uvs)
  end.

(** ** Lines 268-274: the writes *)

Definition apply_common (rf tf : nat) (bm : BMesh) (common_verts : list CommonVert)
    : BMesh :=
  foldl (λ bm info,
    match loop_uv bm rf (cv_ref_loop info) with
    | Some uv => write_uv bm tf (cv_tgt_loop info) uv
    | None => bm
    end) bm common_verts.

Definition apply_other (tf : nat) (bm : BMesh) (uvs : list (OtherVert * Vector))
    : BMesh :=
  foldl (λ bm iu, write_uv bm tf (ov_loop iu.1) iu.2) bm uvs.

Definition read_uv (bm : BMesh) (f l : nat) : abort + Vector :=
  match loop_uv bm f l with
  | Some uv => inr uv
  | None => inl (Raise IndexError)
  end.

(** Lines 213-234: the shared edge as the reference face sees it, and
    the same decomposition in UV space. *)
Definition reference_info (bm : BMesh) (rf : nat)
    (common_verts : list CommonVert) (ref_other_verts : list OtherVert)
    : abort + Reference * Vector * Vector :=
  c0 ← getitem common_verts 0;
  c1 ← getitem common_verts 1;
  o0 ← getitem ref_other_verts 0;
  a_uv ← read_uv bm rf (cv_ref_loop c0);
  b_uv ← read_uv bm rf (cv_ref_loop c1);
  ouv0 ← read_uv bm rf (ov_loop o0);
  let r := shared_edge (bm_co bm (cv_vert c0)) (bm_co bm (cv_vert c1))
                       a_uv b_uv (bm_co bm (ov_vert o0)) in
  let '(ref_uv_hdiff, ref_uv_vdiff) := decompose (cuv0 r) (cuv1 r) ouv0 in
  mret (r, ref_uv_hdiff, ref_uv_vdiff).

(** ** Lines 172-281: the body of [for face in sel_faces] *)

Definition set_face (bm : BMesh) (props : Props) (obj : nat)
    (ref_face_index : Z) (tgt_face_index : nat) : abort + BMesh :=
  if decide (ref_face_index = Z.of_nat tgt_face_index)
  then inl (Cancel W_SELECT_DIFFERENT) else
  if decide (ref_obj props ≠ Some obj)
  then inl (Cancel W_OBJECT_SAME) else
  rf ← index_position (length (bm_faces bm)) ref_face_index;
  ref_face ← getitem (bm_faces bm) rf;
  tgt_face ← getitem (bm_faces bm) tgt_face_index;
  let common_verts := get_common_verts ref_face tgt_face in
  if decide (length common_verts ≠ 2)
  then inl (Cancel W_TWO_SHARED) else
  let ref_other_verts := get_other_verts ref_face common_verts in
  if decide (ref_other_verts = [])
  then inl (Cancel W_UNSHARED) else
  '(r, ref_uv_hdiff, ref_uv_vdiff) ← reference_info bm rf common_verts ref_other_verts;
  let tgt_other_verts := get_other_verts tgt_face common_verts in
  if decide (tgt_other_verts = [])
  then inl (Cancel W_UNSHARED) else
  uvs ← target_uvs (bm_co bm) r ref_uv_hdiff ref_uv_vdiff tgt_other_verts;
  let bm := apply_common rf tgt_face_index bm common_verts in
  let bm := apply_other tgt_face_index bm uvs in
  mret bm.

(** The loop of lines 170-281.  It carries the mesh, the local
    [ref_face_index] and the local [tgt_face_index], which is unbound
    until the first iteration.  An abort comes with the mesh as the
    earlier iterations left it. *)
Fixpoint set_faces (bm : BMesh) (props : Props) (obj : nat)
    (ref_face_index : Z) (tgt_face_index : option nat) (sel_faces : list nat)
    : abort * BMesh + BMesh * option nat :=
  match sel_faces with
  | [] => inr (bm, tgt_face_index)
  | face :: rest =>
      match set_face bm props obj ref_face_index face with
      | inl a => inl (a, bm)
      | inr bm' => set_faces bm' props obj (Z.of_nat face) (Some face) rest
      end
  end.

(** Lines 156-168: the target faces of the chosen mode. *)
Definition select_targets (sc : Scene) (bm : BMesh) : abort + list nat :=
  if muv_texture_wrap_selseq sc then
    let sel_faces := history_faces bm in
    if decide (sel_faces = []) then inl (Cancel W_SELECT_MORE_THAN_ONE)
    else inr sel_faces
  else
    let sel_faces := selected_faces bm in
    if decide (length sel_faces ≠ 1) then inl (Cancel W_SELECT_ONLY_ONE)
    else inr sel_faces.

Definition aborted (a : abort) (bm : BMesh) (props : Props) : Outcome :=
  match a with
  | Cancel w => cancelled w bm props
  | Raise e => raised e bm props
  end.

(** ** [MUV_OT_TextureWrap_Refer.execute] *)
Definition MUV_OT_TextureWrap_Refer_execute (sc : Scene) (obj : nat) (bm : BMesh)
    : Outcome :=
  let props := muv_props sc in
  if decide (bm_uv_layers bm = 0) then cancelled W_NO_UV_MAP bm props else
  let sel_faces := selected_faces bm in
  if decide (length sel_faces ≠ 1) then cancelled W_SELECT_ONLY_ONE bm props else
  match getitem sel_faces 0 with
  | inl a => aborted a bm props
  | inr face =>
      finished bm {| ref_face_index := Z.of_nat face; ref_obj := Some obj |}
  end.

(** ** [MUV_OT_TextureWrap_Set.execute] *)
Definition MUV_OT_TextureWrap_Set_execute (sc : Scene) (obj : nat) (bm : BMesh)
    : Outcome :=
  let props := muv_props sc in
  if decide (bm_uv_layers bm = 0) then cancelled W_NO_UV_MAP bm props else
  match select_targets sc bm with
  | inl a => aborted a bm props
  | inr sel_faces =>
      match set_faces bm props obj (ref_face_index props) None sel_faces with
      | inl (a, bm') => aborted a bm' props
      | inr (bm', tgt_face_index) =>
          if muv_texture_wrap_set_and_refer sc then
            match tgt_face_index with
            | Some t =>
                finished bm' {| ref_face_index := Z.of_nat t;
                                ref_obj := ref_obj props |}
            | None => raised UnboundLocalError bm' props
            end
          else finished bm' props
      end
  end.

(** ** The specification's terms *)

(** A face of a valid mesh meets each of its vertices once. *)
Definition wf_face (f : BMFace) : Prop := NoDup (face_verts f).

(** The vertices two faces share. *)
Definition shared_verts (ref_face tgt_face : BMFace) : gset nat :=
  list_to_set (face_verts ref_face) ∩ list_to_set (face_verts tgt_face).

(** Chain propagation in the specification's words: the first target is
    paired with the reference that was supplied, every later target with
    the target before it. *)
Definition chain_pairs (ref : Z) (targets : list nat) : list (Z * nat) :=
  zip (ref :: (Z.of_nat <$> targets)) targets.

(** One projection per pair, in order, until a pair fails. *)
Fixpoint project_chain (bm : BMesh) (props : Props) (obj : nat)
    (pairs : list (Z * nat)) : abort * BMesh + BMesh :=
  match pairs with
  | [] => inr bm
  | (ref, tgt) :: rest =>
      match set_face bm props obj ref tgt with
      | inl a => inl (a, bm)
      | inr bm' => project_chain bm' props obj rest
      end
  end.

(** The local [ref_face_index] once the faces [done] have been processed. *)
Definition current_ref (ref : Z) (done : list nat) : Z :=
  match last done with Some t => Z.of_nat t | None => ref end.

(** The projected UV in the specification's words,
    [Auv + UVhdiff * factH + UVvdiff * factV], for a given reading [sign]
    of the sign of a dot product. *)
Definition wrap_uv (sign : scalar → scalar) (r : Reference)
    (uv_hdiff uv_vdiff p : Vector) : Vector :=
  let tgt := decompose (cv0 r) (cv1 r) p in
  let edge := vsub (cv1 r) (cv0 r) in
  let fact_v :=
    fmul (fmul (fdiv (vlength tgt.2) (vlength (ref_vdiff r)))
               (sign (vdot tgt.2 edge)))
         (sign (vdot (ref_vdiff r) edge)) in
  let fact_h := fdiv (fneg (vlength tgt.1)) (vlength (ref_hdiff r)) in
  vadd (vadd (cuv0 r) (vmul uv_hdiff fact_h)) (vmul uv_vdiff fact_v).

(** An unshared vertex of the target with the UV the formula gives it,
    under the sign of [math.copysign]. *)
Definition projected (co : nat → Vector) (r : Reference)
    (uv_hdiff uv_vdiff : Vector) (info : OtherVert) : OtherVert * Vector :=
  (info, wrap_uv copysign1 r uv_hdiff uv_vdiff (co (ov_vert info))).

(** The stages a successful iteration went through. *)
Inductive Projection (bm : BMesh) (props : Props) (obj : nat) (r : Z) (t : nat)
    (bm' : BMesh) : Prop :=
  Projection_intro (rf : nat) (ref_face tgt_face : BMFace)
    (c0 c1 : CommonVert) (ref : Reference) (uv_hdiff uv_vdiff : Vector) :
    r ≠ Z.of_nat t →
    ref_obj props = Some obj →
    index_position (length (bm_faces bm)) r = inr rf →
    bm_faces bm !! rf = Some ref_face →
    bm_faces bm !! t = Some tgt_face →
    get_common_verts ref_face tgt_face = [c0; c1] →
    get_other_verts ref_face [c0; c1] ≠ [] →
    reference_info bm rf [c0; c1] (get_other_verts ref_face [c0; c1])
      = inr (ref, uv_hdiff, uv_vdiff) →
    get_other_verts tgt_face [c0; c1] ≠ [] →
    bm' = apply_other t (apply_common rf t bm [c0; c1])
            (projected (bm_co bm) ref uv_hdiff uv_vdiff
               <$> get_other_verts tgt_face [c0; c1]) →
    Projection bm props obj r t bm'.

End Model.

(** ** A binary64 instance of the numerics

    Python floats are IEEE 754 binary64 numbers, as are Rocq's primitive
    floats.  Vectors are lists of components. *)

Module Float64.

Definition dot (a b : list float) : float :=
  foldl (λ d xy, (d + xy.1 * xy.2)%float) 0%float (zip a b).

Definition length (v : list float) : float := PrimFloat.sqrt (dot v v).

Definition add (a b : list float) : list float := zip_with PrimFloat.add a b.
Definition sub (a b : list float) : list float := zip_with PrimFloat.sub a b.
Definition mul (v : list float) (s : float) : list float :=
  (λ x, (x * s)%float) <$> v.

(** Modelled from the spec: [common.diff_point_to_segment], defined in
    [common.py].  [x] is the closest point to [p] on the line through [a]
    and [b], and the first component returned is the offset [p - x]. *)
Definition diff_point_to_segment64 (a b p : list float) : list float * list float :=
  let ab := sub b a in
  let t := (dot (sub p a) ab / dot ab ab)%float in
  let x := add a (mul ab t) in
  (sub p x, x).

Definition mathutils : Mathutils := {|
  scalar := float;
  Vector := list float;
  vadd := add;
  vsub := sub;
  vmul := mul;
  vdot := dot;
  vlength := length;
  fone := 1%float;
  fneg := PrimFloat.opp;
  fmul := PrimFloat.mul;
  fdiv := PrimFloat.div;
  fis_zero := λ x, (x =? 0)%float;
  fsignbit := PrimFloat.get_sign;
  diff_point_to_segment := diff_point_to_segment64;
|}.

(** The three-valued sign: [-1], [0] or [+1]. *)
Definition sign3 (x : float) : float :=
  if (x <? 0)%float then (-1)%float
  else if (0 <? x)%float then 1%float
  else 0%float.

End Float64.

(** ** A mesh of squares

    Face 0 is the unit square, mapped one to one to UV space.  Face 1 is its
    mirror image across the edge between vertices 0 and 1, face 3 continues
    below face 1, and face 2 is a triangle that touches none of them. *)

Module Squares.

#[local] Existing Instance Float64.mathutils.

Definition co (v : nat) : list float :=
  nth v [ [0; 0; 0]; [1; 0; 0]; [1; 1; 0]; [0; 1; 0];
          [0; -1; 0]; [1; -1; 0];
          [5; 5; 0]; [6; 5; 0]; [5; 6; 0];
          [1; -2; 0]; [0; -2; 0] ]%float [0; 0; 0]%float.

Definition blank (v : nat) : BMLoop := {| l_vert := v; l_uv := [9; 9]%float |}.

Definition face0 (select : bool) : BMFace :=
  {| f_select := select;
     f_loops := [ {| l_vert := 0; l_uv := [0; 0]%float |};
                  {| l_vert := 1; l_uv := [1; 0]%float |};
                  {| l_vert := 2; l_uv := [1; 1]%float |};
                  {| l_vert := 3; l_uv := [0; 1]%float |} ] |}.

Definition face1 (select : bool) : BMFace :=
  {| f_select := select; f_loops := blank <$> [1; 0; 4; 5] |}.

Definition face2 (select : bool) : BMFace :=
  {| f_select := select; f_loops := blank <$> [6; 7; 8] |}.

Definition face3 (select : bool) : BMFace :=
  {| f_select := select; f_loops := blank <$> [5; 4; 10; 9] |}.

(** Face 4 is the triangle on vertices 0, 1 and 3.  Its third vertex
    projects onto vertex 0, the first end of the edge it shares with
    face 1. *)
Definition face4 (select : bool) : BMFace :=
  {| f_select := select;
     f_loops := [ {| l_vert := 0; l_uv := [0; 0]%float |};
                  {| l_vert := 1; l_uv := [1; 0]%float |};
                  {| l_vert := 3; l_uv := [0; 1]%float |} ] |}.

(** The mesh with the faces of [sel] selected, in that order of selection. *)
Definition mesh (uv_layers : nat) (sel : list nat) : BMesh :=
  {| bm_faces := [ face0 (bool_decide (0 ∈ sel)); face1 (bool_decide (1 ∈ sel));
                   face2 (bool_decide (2 ∈ sel)); face3 (bool_decide (3 ∈ sel));
                   face4 (bool_decide (4 ∈ sel)) ];
     bm_uv_layers := uv_layers;
     bm_select_history := BMFaceRef <$> sel;
     bm_co := co |}.

Definition scene (ref : Z) (obj : option nat) (set_and_refer selseq : bool) : Scene :=
  {| muv_props := {| ref_face_index := ref; ref_obj := obj |};
     muv_texture_wrap_set_and_refer := set_and_refer;
     muv_texture_wrap_selseq := selseq |}.

Definition uvs_of (bm : BMesh) (f : nat) : list Vector :=
  match bm_faces bm !! f with
  | Some face => l_uv <$> f_loops face
  | None => []
  end.

(** The mesh a run of the loop leaves, whether it completes or not. *)
Definition mesh_after (props : Props) (obj : nat) (bm : BMesh) (targets : list nat)
    : BMesh :=
  match set_faces bm props obj (ref_face_index props) None targets with
  | inl (_, bm') => bm'
  | inr (bm', _) => bm'
  end.

(** The reference of the projection of face 1 against face 0, and the
    offset of vertex 4 along the shared edge. *)
Definition ref01 : Reference :=
  shared_edge (co 0) (co 1) [0; 0]%float [1; 0]%float (co 2).

Definition tgt_vdiff4 : list float := (decompose (cv0 ref01) (cv1 ref01) (co 4)).2.


End Squares.


(** * The operators in their context

    What [poll] and [execute] read from the [context] they are given, and
    what the proofs about whole executions speak of. *)

Section Operators.
Context `{M : Mathutils}.

(** The [context] of an operator.  [common.is_console_mode],
    [common.is_valid_space(context, ['VIEW_3D'])] and
    [common.get_uv_editable_objects(context)] belong to [common.py]; the
    context records what they return.  An object comes with the BMesh of
    its [data]; [context.object] may be [None]. *)
Record BlContext := {
  is_console_mode : bool;
  is_valid_space : bool;
  get_uv_editable_objects : list (nat * BMesh);
  object_mode : option string;
  ctx_scene : Scene;
}.

(** [_is_valid_context].  [None] stands for the [AttributeError] of
    [context.object.mode] when there is no active object. *)
Definition _is_valid_context (context : BlContext) : option bool :=
  if negb (is_valid_space context) then Some false
  else if decide (length (get_uv_editable_objects context) ≠ 1) then Some false
  else
    mode ← object_mode context;
    if decide (mode ≠ "EDIT") then Some false else Some true.

(** [MUV_OT_TextureWrap_Refer.poll] *)
Definition MUV_OT_TextureWrap_Refer_poll (context : BlContext) : option bool :=
  if is_console_mode context then Some true
  else _is_valid_context context.

(** [MUV_OT_TextureWrap_Set.poll] *)
Definition MUV_OT_TextureWrap_Set_poll (context : BlContext) : option bool :=
  if is_console_mode context then Some true
  else
    match ref_obj (muv_props (ctx_scene context)) with
    | None => Some false
    | Some _ => _is_valid_context context
    end.

(** The first lines of both [execute] methods: [obj = objs[0]] and the
    BMesh of [obj.data]. *)
Definition edited_object (context : BlContext) : exn + nat * BMesh :=
  match get_uv_editable_objects context with
  | [] => inl IndexError
  | objbm :: _ => inr objbm
  end.

Definition MUV_OT_TextureWrap_Refer_run (context : BlContext) : exn + Outcome :=
  match edited_object context with
  | inl e => inl e
  | inr (obj, bm) => inr (MUV_OT_TextureWrap_Refer_execute (ctx_scene context) obj bm)
  end.

Definition MUV_OT_TextureWrap_Set_run (context : BlContext) : exn + Outcome :=
  match edited_object context with
  | inl e => inl e
  | inr (obj, bm) => inr (MUV_OT_TextureWrap_Set_execute (ctx_scene context) obj bm)
  end.

(** The scene as the next operator finds it: [props] is one object, written
    in place. *)
Definition with_props (sc : Scene) (props : Props) : Scene :=
  {| muv_props := props;
     muv_texture_wrap_set_and_refer := muv_texture_wrap_set_and_refer sc;
     muv_texture_wrap_selseq := muv_texture_wrap_selseq sc |}.

(** Everything of a mesh but the UVs of its loops. *)
Definition face_shape (f : BMFace) : bool * list nat := (f_select f, face_verts f).

Definition same_shape (bm bm' : BMesh) : Prop :=
  face_shape <$> bm_faces bm' = face_shape <$> bm_faces bm
  ∧ bm_uv_layers bm' = bm_uv_layers bm
  ∧ bm_select_history bm' = bm_select_history bm
  ∧ bm_co bm' = bm_co bm.

(** The persisted reference either was never captured or names a face of
    the mesh. *)
Definition valid_reference (bm : BMesh) (props : Props) : Prop :=
  ref_obj props = None
  ∨ (0 ≤ ref_face_index props < Z.of_nat (length (bm_faces bm)))%Z.

(** Every face has at least three vertices and meets each of them once. *)
Definition valid_faces (bm : BMesh) : Prop :=
  Forall (λ f, wf_face f ∧ 3 ≤ length (f_loops f)) (bm_faces bm).

(** A sequence of UV assignments to the loops of one face. *)
Definition write_loops (ws : list (nat * Vector)) (loops : list BMLoop) : list BMLoop :=
  foldl (λ ls lu, alter (set_uv lu.2) lu.1 ls) loops ws.

Definition writes (t : nat) (ws : list (nat * Vector)) (bm : BMesh) : BMesh :=
  foldl (λ bm lu, write_uv bm t lu.1 lu.2) bm ws.

(** The context as the next [poll] finds it. *)
Definition context_with_props (context : BlContext) (props : Props) : BlContext :=
  {| is_console_mode := is_console_mode context;
     is_valid_space := is_valid_space context;
     get_uv_editable_objects := get_uv_editable_objects context;
     object_mode := object_mode context;
     ctx_scene := with_props (ctx_scene context) props |}.

(** The assignment of line 274 for one unshared vertex. *)
Definition other_write (iu : OtherVert * Vector) : nat * Vector :=
  (ov_loop iu.1, iu.2).

End Operators.

(** ** Further scenes *)

Module Scenes.

#[local] Existing Instance Float64.mathutils.



(** A 3D view in edit mode. *)
Definition view3d (console : bool) (objs : list (nat * BMesh)) (sc : Scene)
    : BlContext :=
  {| is_console_mode := console;
     is_valid_space := true;
     get_uv_editable_objects := objs;
     object_mode := Some "EDIT";
     ctx_scene := sc |}.

End Scenes.

(** * Properties *)

Section Properties.
Context `{M : Mathutils}.
Implicit Types (bm : BMesh) (props : Props) (sc : Scene) (obj : nat).

(** ** Selection *)

Lemma select_targets_abort sc bm a :
  select_targets sc bm = inl a →
  a = Cancel W_SELECT_MORE_THAN_ONE ∨ a = Cancel W_SELECT_ONLY_ONE.
Proof.
  unfold select_targets. destruct (muv_texture_wrap_selseq sc);
    case_decide; naive_solver.
Qed.

Lemma select_targets_cons sc bm ts :
  select_targets sc bm = inr ts → ∃ face rest, ts = face :: rest.
Proof.
  unfold select_targets. destruct (muv_texture_wrap_selseq sc);
    case_decide; intros [= <-].
  - destruct (history_faces bm); [done | eauto].
  - destruct (selected_faces bm); [simpl in *; lia | eauto].
Qed.

Lemma message_inj w1 w2 : message w1 = message w2 → w1 = w2.
Proof. destruct w1, w2; simpl; (done || discriminate). Qed.

(** ** The loop *)

Lemma set_faces_tgt bm props obj r t ts bm' t' :
  set_faces bm props obj r t ts = inr (bm', t') →
  t' = match last ts with Some x => Some x | None => t end.
Proof.
  revert bm r t. induction ts as [|face rest IH]; intros bm r t Hrun; simpl in *.
  - by simplify_eq.
  - destruct (set_face bm props obj r face) as [a|bm1]; [done|].
    apply IH in Hrun. rewrite last_cons. by destruct (last rest).
Qed.

Lemma set_faces_app bm props obj r t pre post :
  set_faces bm props obj r t (pre ++ post) =
  match set_faces bm props obj r t pre with
  | inl e => inl e
  | inr (bm1, t1) => set_faces bm1 props obj (current_ref r pre) t1 post
  end.
Proof.
  revert bm r t. induction pre as [|face rest IH]; intros bm r t; simpl.
  - done.
  - destruct (set_face bm props obj r face) as [a|bm1]; [done|].
    rewrite IH. destruct (set_faces bm1 props obj _ _ rest) as [e|[bm2 t2]]; [done|].
    unfold current_ref. rewrite last_cons. by destruct (last rest).
Qed.

(** ** [Refer] *)

(** C10: when [Refer] fails, because the mesh has no UV layer or because
    the number of selected faces is not one, it returns CANCELLED and the
    persisted reference face and reference object keep their values. *)
Theorem refer_failure_keeps_state sc obj bm :
  bm_uv_layers bm = 0 ∨ length (selected_faces bm) ≠ 1 →
  let o := MUV_OT_TextureWrap_Refer_execute sc obj bm in
  ret o = CANCELLED
  ∧ ref_face_index (out_props o) = ref_face_index (muv_props sc)
  ∧ ref_obj (out_props o) = ref_obj (muv_props sc).
Proof.
  intros Hfail. unfold MUV_OT_TextureWrap_Refer_execute.
  case_decide; [done|]. case_decide; [done|]. by destruct Hfail.
Qed.

(** [Refer] writes the state exactly when it succeeds. *)
Lemma refer_success sc obj bm :
  bm_uv_layers bm ≠ 0 → ∀ face, selected_faces bm = [face] →
  let o := MUV_OT_TextureWrap_Refer_execute sc obj bm in
  ret o = FINISHED
  ∧ out_props o = {| ref_face_index := Z.of_nat face; ref_obj := Some obj |}.
Proof.
  intros Huv face Hsel. unfold MUV_OT_TextureWrap_Refer_execute.
  case_decide; [done|]. rewrite Hsel. by case_decide.
Qed.

(** ** [Set] and the persisted state *)

(** What an execution of [Set] leaves in the persisted state. *)
Lemma set_execute_props sc obj bm :
  let o := MUV_OT_TextureWrap_Set_execute sc obj bm in
  (ret o ≠ FINISHED ∨ muv_texture_wrap_set_and_refer sc = false →
     out_props o = muv_props sc)
  ∧ (ret o = FINISHED → muv_texture_wrap_set_and_refer sc = true →
     ∃ ts t, select_targets sc bm = inr ts ∧ last ts = Some t
       ∧ out_props o = {| ref_face_index := Z.of_nat t;
                          ref_obj := ref_obj (muv_props sc) |}).
Proof.
  unfold MUV_OT_TextureWrap_Set_execute.
  case_decide; [by split; [|intros [=]]|].
  destruct (select_targets sc bm) as [a|ts] eqn:Hsel.
  { destruct a; by split; [|intros [=]]. }
  destruct (set_faces _ _ _ _ _ ts) as [[a bm']|[bm' t]] eqn:Hrun.
  { destruct a; by split; [|intros [=]]. }
  apply set_faces_tgt in Hrun.
  destruct (select_targets_cons _ _ _ Hsel) as (face & rest & ->).
  destruct (last (face :: rest)) as [x|] eqn:Hlast;
    [|by apply last_None in Hlast].
  subst t. destruct (muv_texture_wrap_set_and_refer sc); simpl.
  - split; [intros [|]; done|]. intros _ _. by exists (face :: rest), x.
  - split; [done|]. by intros _ [=].
Qed.

Lemma set_state_frame_aux sc obj bm :
  let o := MUV_OT_TextureWrap_Set_execute sc obj bm in
  ret o = FINISHED → muv_texture_wrap_set_and_refer sc = true →
  ∃ ts t, select_targets sc bm = inr ts ∧ last ts = Some t
    ∧ ref_face_index (out_props o) = Z.of_nat t.
Proof.
  intros o Hfin Hopt.
  destruct (set_execute_props sc obj bm) as [_ Hset].
  destruct (Hset Hfin Hopt) as (ts & t & ? & ? & Hp).
  exists ts, t. unfold o. by rewrite Hp.
Qed.

(** C3: [Set] never writes [ref_obj].  It leaves [ref_face_index] alone
    whenever it does not finish or set-and-refer is off; when it finishes
    with set-and-refer on, it stores the index of the last target face. *)
Theorem set_state_frame sc obj bm :
  let o := MUV_OT_TextureWrap_Set_execute sc obj bm in
  ref_obj (out_props o) = ref_obj (muv_props sc)
  ∧ (ret o ≠ FINISHED ∨ muv_texture_wrap_set_and_refer sc = false →
       ref_face_index (out_props o) = ref_face_index (muv_props sc))
  ∧ (ret o = FINISHED → muv_texture_wrap_set_and_refer sc = true →
       ∃ ts t, select_targets sc bm = inr ts ∧ last ts = Some t
         ∧ ref_face_index (out_props o) = Z.of_nat t).
Proof.
  intros o. destruct (set_execute_props sc obj bm) as [Hkeep Hset].
  fold o in Hkeep, Hset. split_and!.
  - destruct (decide (ret o = FINISHED)) as [Hfin|Hfin];
      [|by rewrite Hkeep; [|left]].
    destruct (muv_texture_wrap_set_and_refer sc) eqn:Hopt;
      [|by rewrite Hkeep; [|right]].
    destruct (Hset Hfin eq_refl) as (ts & t & _ & _ & ->). done.
  - intros H. by rewrite Hkeep.
  - intros Hfin Hopt. destruct (Hset Hfin Hopt) as (ts & t & ? & ? & ->).
    by exists ts, t.
Qed.

(** C6: in sequence mode with set-and-refer on, an execution that stops
    at a later face of the sequence leaves the persisted reference as it
    was, with the mesh as the faces before it left it; the last target
    becomes the persisted reference only when the whole sequence has been
    processed. *)
Theorem set_and_refer_needs_completion sc obj bm :
  muv_texture_wrap_selseq sc = true →
  muv_texture_wrap_set_and_refer sc = true →
  let props := muv_props sc in
  let o := MUV_OT_TextureWrap_Set_execute sc obj bm in
  (∀ pre face post bm1 t1 a,
     bm_uv_layers bm ≠ 0 →
     select_targets sc bm = inr (pre ++ face :: post) →
     set_faces bm props obj (ref_face_index props) None pre = inr (bm1, t1) →
     set_face bm1 props obj (current_ref (ref_face_index props) pre) face = inl a →
     o = aborted a bm1 props ∧ ret o ≠ FINISHED
     ∧ ref_face_index (out_props o) = ref_face_index props)
  ∧ (ret o = FINISHED →
     ∃ ts t, select_targets sc bm = inr ts ∧ last ts = Some t
       ∧ ref_face_index (out_props o) = Z.of_nat t).
Proof.
  intros Hseq Hopt props o. split.
  - intros pre face post bm1 t1 a Huv Hsel Hpre Hface.
    assert (o = aborted a bm1 props) as ->.
    { unfold o, MUV_OT_TextureWrap_Set_execute. case_decide; [done|].
      rewrite Hsel, set_faces_app. fold props. rewrite Hpre. simpl.
      by rewrite Hface. }
    by destruct a.
  - intros Hfin. by apply set_state_frame_aux.
Qed.

(** ** [Set] across objects *)

(** C9: when the persisted reference was captured on another object,
    [Set] returns CANCELLED with the warning of a validation check and
    leaves the mesh and the persisted state as they were.  The warning is
    that of the first check that fails, in the order of the code: that of
    the UV layer; then that of the selection of the mode; then "Must
    select different face" when the first target face carries the index of
    the reference face; and "Object must be same" when none of these
    does. *)
Theorem set_cross_object_cancelled sc obj bm :
  ref_obj (muv_props sc) ≠ Some obj →
  let o := MUV_OT_TextureWrap_Set_execute sc obj bm in
  ret o = CANCELLED ∧ out_bm o = bm ∧ out_props o = muv_props sc
  ∧ (∃ w, is_validation w = true ∧ reports o = [message w])
  ∧ (bm_uv_layers bm ≠ 0 →
     ∀ face rest, select_targets sc bm = inr (face :: rest) →
     ref_face_index (muv_props sc) ≠ Z.of_nat face →
     reports o = ["Object must be same"])
  ∧ (bm_uv_layers bm = 0 →
     reports o = ["Object must have more than one UV map"])
  ∧ (bm_uv_layers bm ≠ 0 → muv_texture_wrap_selseq sc = true →
     history_faces bm = [] →
     reports o = ["Must select more than one face"])
  ∧ (bm_uv_layers bm ≠ 0 → muv_texture_wrap_selseq sc = false →
     length (selected_faces bm) ≠ 1 →
     reports o = ["Must select only one face"])
  ∧ (bm_uv_layers bm ≠ 0 →
     ∀ face rest, select_targets sc bm = inr (face :: rest) →
     ref_face_index (muv_props sc) = Z.of_nat face →
     reports o = ["Must select different face"]).
Proof.
  intros Hobj. unfold MUV_OT_TextureWrap_Set_execute.
  case_decide as Huv.
  { split_and!; try done. by exists W_NO_UV_MAP. }
  unfold select_targets.
  destruct (muv_texture_wrap_selseq sc) eqn:Hmode.
  - case_decide as Hhist.
    { split_and!; try done. by exists W_SELECT_MORE_THAN_ONE. }
    destruct (history_faces bm) as [|face rest]; [done|].
    simpl. unfold set_face. case_decide as Hsame.
    { split_and!; try done; [by exists W_SELECT_DIFFERENT|].
      intros _ face' rest' [= <- <-]. done. }
    rewrite decide_True by done.
    split_and!; try done; [by exists W_OBJECT_SAME|].
    intros _ face' rest' [= <- <-]. done.
  - case_decide as Hlen.
    { split_and!; try done. by exists W_SELECT_ONLY_ONE. }
    destruct (selected_faces bm) as [|face rest]; [simpl in Hlen; lia|].
    simpl. unfold set_face. case_decide as Hsame.
    { split_and!; try done; [by exists W_SELECT_DIFFERENT|].
      intros _ face' rest' [= <- <-]. done. }
    rewrite decide_True by done.
    split_and!; try done; [by exists W_OBJECT_SAME|].
    intros _ face' rest' [= <- <-]. done.
Qed.

(** ** Chain propagation *)

Lemma chain_pairs_cons r face rest :
  chain_pairs r (face :: rest) = (r, face) :: chain_pairs (Z.of_nat face) rest.
Proof. done. Qed.

Lemma chain_pairs_lookup_S r ts k prev face :
  ts !! k = Some prev → ts !! S k = Some face →
  chain_pairs r ts !! S k = Some (Z.of_nat prev, face).
Proof.
  revert r k. induction ts as [|x ts IH]; intros r k Hprev Hface; [done|].
  rewrite chain_pairs_cons. destruct k as [|k]; simpl in *.
  - simplify_eq. destruct ts as [|y ts]; by simplify_eq/=.
  - by apply IH.
Qed.

Lemma set_faces_chain bm props obj r t ts :
  set_faces bm props obj r t ts =
  match project_chain bm props obj (chain_pairs r ts) with
  | inl e => inl e
  | inr bm' => inr (bm', match last ts with Some x => Some x | None => t end)
  end.
Proof.
  revert bm r t. induction ts as [|face rest IH]; intros bm r t; [done|].
  rewrite chain_pairs_cons. simpl.
  destruct (set_face bm props obj r face) as [a|bm1]; [done|].
  rewrite IH. destruct (project_chain _ _ _ _) as [e|bm2]; [done|].
  rewrite last_cons. by destruct (last rest).
Qed.

(** C8: the projections of an execution of [Set] are those of the chain
    of its targets: the first target is projected against the persisted
    reference face, every later target against the target before it, one
    projection after the other until one fails. *)
Theorem set_chain_propagation sc obj bm ts :
  bm_uv_layers bm ≠ 0 →
  select_targets sc bm = inr ts →
  let props := muv_props sc in
  let pairs := chain_pairs (ref_face_index props) ts in
  let o := MUV_OT_TextureWrap_Set_execute sc obj bm in
  length pairs = length ts
  ∧ (∃ face, ts !! 0 = Some face ∧ pairs !! 0 = Some (ref_face_index props, face))
  ∧ (∀ k prev face, ts !! k = Some prev → ts !! S k = Some face →
       pairs !! S k = Some (Z.of_nat prev, face))
  ∧ match project_chain bm props obj pairs with
    | inl (a, bm') => o = aborted a bm' props
    | inr bm' => ret o = FINISHED ∧ out_bm o = bm'
    end.
Proof.
  intros Huv Hsel props pairs o. split_and!.
  - unfold pairs, chain_pairs.
    rewrite length_zip, length_cons, length_fmap. lia.
  - destruct (select_targets_cons _ _ _ Hsel) as (face & rest & ->).
    by exists face.
  - intros k prev face. apply chain_pairs_lookup_S.
  - unfold o, MUV_OT_TextureWrap_Set_execute. case_decide; [done|].
    rewrite Hsel, set_faces_chain. fold props pairs.
    destruct (project_chain bm props obj pairs) as [[a bm']|bm'] eqn:Hrun; [done|].
    destruct (select_targets_cons _ _ _ Hsel) as (face & rest & ->).
    destruct (last (face :: rest)) as [x|] eqn:Hlast;
      [|by apply last_None in Hlast].
    by destruct (muv_texture_wrap_set_and_refer sc).
Qed.

(** ** The projection of one vertex *)

Lemma copysign1_cases y : copysign1 y = fone ∨ copysign1 y = fneg fone.
Proof. unfold copysign1. destruct (fsignbit y); auto. Qed.

Lemma target_uv_defined r uv_hdiff uv_vdiff p :
  fis_zero (vlength (ref_vdiff r)) = false →
  fis_zero (vlength (ref_hdiff r)) = false →
  target_uv r uv_hdiff uv_vdiff p = inr (wrap_uv copysign1 r uv_hdiff uv_vdiff p).
Proof.
  intros Hv Hh. unfold target_uv, wrap_uv, truediv, sign_factor.
  destruct (decompose (cv0 r) (cv1 r) p) as [tgt_hdiff tgt_vdiff].
  rewrite Hv. simpl. by rewrite Hh.
Qed.

Lemma target_uv_inr r uv_hdiff uv_vdiff p uv :
  target_uv r uv_hdiff uv_vdiff p = inr uv →
  uv = wrap_uv copysign1 r uv_hdiff uv_vdiff p.
Proof.
  unfold target_uv, wrap_uv, truediv, sign_factor.
  destruct (decompose (cv0 r) (cv1 r) p) as [tgt_hdiff tgt_vdiff].
  destruct (fis_zero (vlength (ref_vdiff r))); [done|]. simpl.
  destruct (fis_zero (vlength (ref_hdiff r))); [done|]. simpl.
  by intros [= <-].
Qed.

Lemma target_uv_inl r uv_hdiff uv_vdiff p a :
  target_uv r uv_hdiff uv_vdiff p = inl a →
  a = Raise ZeroDivisionError
  ∧ (fis_zero (vlength (ref_vdiff r)) = true
     ∨ fis_zero (vlength (ref_hdiff r)) = true).
Proof.
  unfold target_uv, truediv.
  destruct (decompose (cv0 r) (cv1 r) p) as [tgt_hdiff tgt_vdiff].
  destruct (fis_zero (vlength (ref_vdiff r))); [by intros [= <-]; auto|]. simpl.
  destruct (fis_zero (vlength (ref_hdiff r))); [by intros [= <-]; auto|]. done.
Qed.

Lemma target_uvs_defined co r uv_hdiff uv_vdiff others :
  fis_zero (vlength (ref_vdiff r)) = false →
  fis_zero (vlength (ref_hdiff r)) = false →
  target_uvs co r uv_hdiff uv_vdiff others
  = inr (projected co r uv_hdiff uv_vdiff <$> others).
Proof.
  intros Hv Hh. induction others as [|info rest IH]; [done|]. simpl.
  rewrite target_uv_defined by done. simpl. by rewrite IH.
Qed.

Lemma target_uvs_inr co r uv_hdiff uv_vdiff others uvs :
  target_uvs co r uv_hdiff uv_vdiff others = inr uvs →
  uvs = projected co r uv_hdiff uv_vdiff <$> others.
Proof.
  revert uvs. induction others as [|info rest IH]; intros uvs; simpl.
  - by intros [= <-].
  - destruct (target_uv _ _ _ _) as [a|uv] eqn:Huv; [done|]. simpl.
    destruct (target_uvs _ _ _ _ rest) as [a|uvs']; [done|]. simpl.
    intros [= <-]. apply target_uv_inr in Huv as ->. by rewrite (IH uvs').
Qed.

Lemma target_uvs_inl co r uv_hdiff uv_vdiff others a :
  target_uvs co r uv_hdiff uv_vdiff others = inl a →
  a = Raise ZeroDivisionError
  ∧ (fis_zero (vlength (ref_vdiff r)) = true
     ∨ fis_zero (vlength (ref_hdiff r)) = true).
Proof.
  induction others as [|info rest IH]; simpl; [done|].
  destruct (target_uv _ _ _ _) as [a'|uv] eqn:Huv; simpl.
  - intros [= <-]. by eapply target_uv_inl.
  - destruct (target_uvs _ _ _ _ rest) as [a'|uvs']; [|done]. simpl.
    intros [= <-]. by apply IH.
Qed.

(** ** The degenerate-edge guard *)

Lemma shared_edge_nonzero a b auv buv o :
  is_degenerate (decompose a b o) = false
  ∨ is_degenerate (decompose b a o) = false →
  let r := shared_edge a b auv buv o in
  fis_zero (vlength (ref_hdiff r)) = false
  ∧ fis_zero (vlength (ref_vdiff r)) = false.
Proof.
  intros Hok. unfold shared_edge.
  destruct (is_degenerate (decompose a b o)) eqn:Hfirst; simpl.
  - destruct Hok as [|Hswap]; [done|].
    unfold is_degenerate in Hswap. by apply orb_false_iff in Hswap.
  - unfold is_degenerate in Hfirst. by apply orb_false_iff in Hfirst.
Qed.

(** ** One iteration of the loop *)

Lemma getitem_inr {A} (xs : list A) i x : getitem xs i = inr x ↔ xs !! i = Some x.
Proof. unfold getitem. destruct (xs !! i); naive_solver. Qed.

Lemma getitem_inl {A} (xs : list A) i a :
  getitem xs i = inl a → a = Raise IndexError.
Proof. unfold getitem. destruct (xs !! i); naive_solver. Qed.

Lemma read_uv_inr bm f l uv : read_uv bm f l = inr uv ↔ loop_uv bm f l = Some uv.
Proof. unfold read_uv. destruct (loop_uv bm f l); naive_solver. Qed.

Lemma read_uv_inl bm f l a : read_uv bm f l = inl a → a = Raise IndexError.
Proof. unfold read_uv. destruct (loop_uv bm f l); naive_solver. Qed.

Lemma index_position_inl len i a :
  index_position len i = inl a → a = Raise IndexError.
Proof. unfold index_position. case_decide; by intros [= <-]. Qed.


Lemma reference_info_inl bm rf cvs others a :
  reference_info bm rf cvs others = inl a → a = Raise IndexError.
Proof.
  unfold reference_info.
  repeat
    (match goal with
     | |- context [getitem ?xs ?i] =>
         let He := fresh "He" in
         destruct (getitem xs i) eqn:He;
         [apply getitem_inl in He; simpl; congruence|]; simpl
     | |- context [read_uv ?b ?f ?l] =>
         let He := fresh "He" in
         destruct (read_uv b f l) eqn:He;
         [apply read_uv_inl in He; simpl; congruence|]; simpl
     end).
  match goal with
  | |- context [decompose ?a ?b ?p] => by destruct (decompose a b p)
  end.
Qed.


(** Opens the next stage of [set_face] in hypothesis [H]. *)
Ltac next_stage H :=
  match type of H with
  | context [decide ?P] => destruct (decide P)
  | context [index_position ?n ?i] =>
      let E := fresh "Hpos" in destruct (index_position n i) eqn:E
  | context [getitem ?xs ?i] =>
      let E := fresh "Hget" in destruct (getitem xs i) eqn:E
  | context [reference_info ?b ?f ?c ?o] =>
      let E := fresh "Href" in
      destruct (reference_info b f c o) as [?|[[? ?] ?]] eqn:E
  | context [target_uvs ?co ?r ?h ?v ?o] =>
      let E := fresh "Huvs" in destruct (target_uvs co r h v o) eqn:E
  end; cbn [mbind abort_bind mret abort_ret] in H.

Lemma length_two {A} (l : list A) : length l = 2 → ∃ x y, l = [x; y].
Proof. destruct l as [|x [|y [|z l]]]; naive_solver. Qed.

Lemma set_face_inr bm props obj r t bm' :
  set_face bm props obj r t = inr bm' → Projection bm props obj r t bm'.
Proof.
  intros H. unfold set_face in H.
  repeat (next_stage H; try discriminate H).
  injection H as <-.
  destruct (length_two (get_common_verts b0 b)) as (c0 & c1 & Hc); [lia|].
  rewrite Hc in *.
  apply target_uvs_inr in Huvs as ->.
  apply getitem_inr in Hget, Hget0.
  econstructor; eauto. by destruct (decide (ref_obj props = Some obj)).
Qed.


(** A division by zero comes from the reference lengths of the iteration. *)
Lemma set_face_zero_division bm props obj r t :
  set_face bm props obj r t = inl (Raise ZeroDivisionError) →
  ∃ rf ref_face tgt_face ref uv_hdiff uv_vdiff,
    index_position (length (bm_faces bm)) r = inr rf
    ∧ bm_faces bm !! rf = Some ref_face
    ∧ bm_faces bm !! t = Some tgt_face
    ∧ reference_info bm rf (get_common_verts ref_face tgt_face)
        (get_other_verts ref_face (get_common_verts ref_face tgt_face))
      = inr (ref, uv_hdiff, uv_vdiff)
    ∧ (fis_zero (vlength (ref_vdiff ref)) = true
       ∨ fis_zero (vlength (ref_hdiff ref)) = true).
Proof.
  intros H. unfold set_face in H.
  repeat (next_stage H;
    try match goal with
        | E : _ = inl ?a |- _ =>
            first [ apply index_position_inl in E
                  | apply getitem_inl in E
                  | apply reference_info_inl in E ]; subst a
        end;
    try discriminate H).
  apply target_uvs_inl in Huvs as [_ Hzero].
  apply getitem_inr in Hget, Hget0.
  by eexists _, _, _, _, _, _.
Qed.

Lemma reference_info_inr bm rf c0 c1 cvs o0 others ref uv_hdiff uv_vdiff :
  reference_info bm rf (c0 :: c1 :: cvs) (o0 :: others)
    = inr (ref, uv_hdiff, uv_vdiff) →
  ∃ a_uv b_uv ouv0,
    loop_uv bm rf (cv_ref_loop c0) = Some a_uv
    ∧ loop_uv bm rf (cv_ref_loop c1) = Some b_uv
    ∧ loop_uv bm rf (ov_loop o0) = Some ouv0
    ∧ ref = shared_edge (bm_co bm (cv_vert c0)) (bm_co bm (cv_vert c1))
              a_uv b_uv (bm_co bm (ov_vert o0))
    ∧ (uv_hdiff, uv_vdiff) = decompose (cuv0 ref) (cuv1 ref) ouv0.
Proof.
  unfold reference_info. cbn [getitem lookup list_lookup mbind abort_bind].
  destruct (read_uv bm rf (cv_ref_loop c0)) as [|a_uv] eqn:Ha; [done|].
  destruct (read_uv bm rf (cv_ref_loop c1)) as [|b_uv] eqn:Hb; [done|].
  destruct (read_uv bm rf (ov_loop o0)) as [|ouv0] eqn:Ho; [done|].
  cbn [mbind abort_bind]. apply read_uv_inr in Ha, Hb, Ho.
  destruct (decompose _ _ ouv0) as [h v] eqn:Huv.
  intros [= <- <- <-]. exists a_uv, b_uv, ouv0. by rewrite Huv.
Qed.

(** C4: in a projection where one of the two orders of the shared edge
    gives a reference offset of non-zero length in both directions, the
    reference is taken with the ends of the edge and their UVs exchanged
    and the offsets computed again whenever the first order gives a zero
    length, both lengths the iteration divides by are non-zero, and the
    iteration raises no division by zero. *)
Theorem degenerate_edge_guard bm props obj r t rf ref_face tgt_face c0 c1 o0 others :
  index_position (length (bm_faces bm)) r = inr rf →
  bm_faces bm !! rf = Some ref_face →
  bm_faces bm !! t = Some tgt_face →
  get_common_verts ref_face tgt_face = [c0; c1] →
  get_other_verts ref_face [c0; c1] = o0 :: others →
  let a := bm_co bm (cv_vert c0) in
  let b := bm_co bm (cv_vert c1) in
  let o := bm_co bm (ov_vert o0) in
  is_degenerate (decompose a b o) = false
  ∨ is_degenerate (decompose b a o) = false →
  (∀ a_uv b_uv,
     let ref := shared_edge a b a_uv b_uv o in
     (is_degenerate (decompose a b o) = true →
        cv0 ref = b ∧ cv1 ref = a ∧ cuv0 ref = b_uv ∧ cuv1 ref = a_uv
        ∧ (ref_hdiff ref, ref_vdiff ref) = decompose b a o)
     ∧ fis_zero (vlength (ref_vdiff ref)) = false
     ∧ fis_zero (vlength (ref_hdiff ref)) = false
     ∧ ∀ uv_hdiff uv_vdiff tgt_others,
         target_uvs (bm_co bm) ref uv_hdiff uv_vdiff tgt_others
         = inr (projected (bm_co bm) ref uv_hdiff uv_vdiff <$> tgt_others))
  ∧ set_face bm props obj r t ≠ inl (Raise ZeroDivisionError).
Proof.
  intros Hpos Hrf Htf Hcommon Hothers a b o Hok. split.
  - intros a_uv b_uv ref.
    destruct (shared_edge_nonzero a b a_uv b_uv o Hok) as [Hh Hv].
    fold ref in Hh, Hv. split_and!; [|done..|].
    + intros Hfirst. unfold ref, shared_edge. rewrite Hfirst. simpl.
      split_and!; try done. by destruct (decompose b a o).
    + intros. by apply target_uvs_defined.
  - intros Hzero. apply set_face_zero_division in Hzero
      as (rf' & ref_face' & tgt_face' & ref & h & v & Hpos' & Hrf' & Htf' & Href & Hz).
    rewrite Hpos in Hpos'. injection Hpos' as <-.
    rewrite Hrf in Hrf'. injection Hrf' as <-.
    rewrite Htf in Htf'. injection Htf' as <-.
    rewrite Hcommon, Hothers in Href.
    apply reference_info_inr in Href as (a_uv & b_uv & ouv0 & _ & _ & _ & -> & _).
    destruct (shared_edge_nonzero a b a_uv b_uv o Hok) as [Hh Hv].
    subst a b o. destruct Hz; congruence.
Qed.

(** ** Validation errors *)





(** ** Shared and unshared vertices *)

Lemma find_loop_Some v j loops k :
  find_loop v j loops = Some k →
  ∃ dl, j ≤ k ∧ loops !! (k - j) = Some dl ∧ l_vert dl = v.
Proof.
  revert j. induction loops as [|dl rest IH]; intros j; simpl; [done|].
  case_decide as Hv.
  - intros [= <-]. exists dl. by rewrite Nat.sub_diag.
  - intros (dl' & Hle & Hlook & Hvert)%IH. exists dl'.
    split_and!; [lia| |done].
    by replace (k - j) with (S (k - S j)) by lia.
Qed.

Lemma find_loop_None v j loops :
  find_loop v j loops = None → v ∉ l_vert <$> loops.
Proof.
  revert j. induction loops as [|dl rest IH]; intros j; simpl.
  - intros _. apply not_elem_of_nil.
  - case_decide; [done|]. intros Hnone%IH. by apply not_elem_of_cons.
Qed.

Lemma find_loop_NoDup j loops m dl :
  NoDup (l_vert <$> loops) → loops !! m = Some dl →
  find_loop (l_vert dl) j loops = Some (j + m).
Proof.
  revert j m. induction loops as [|dl' rest IH]; intros j m Hnd Hm; [done|].
  simpl. rewrite fmap_cons in Hnd. apply NoDup_cons in Hnd as [Hnotin Hnd].
  destruct m as [|m]; simpl in Hm.
  - injection Hm as ->. rewrite decide_True by done. f_equal. lia.
  - rewrite decide_False.
    + rewrite (IH (S j) m) by done. f_equal. lia.
    + intros Heq. apply Hnotin. rewrite <- Heq.
      apply list_elem_of_fmap_2. by eapply list_elem_of_lookup_2.
Qed.

Lemma common_verts_from_verts i ref_loops tgt_loops :
  cv_vert <$> common_verts_from i ref_loops tgt_loops
  = filter (λ v, v ∈ l_vert <$> tgt_loops) (l_vert <$> ref_loops).
Proof.
  revert i. induction ref_loops as [|sl rest IH]; intros i; simpl; [done|].
  rewrite filter_cons.
  destruct (find_loop (l_vert sl) 0 tgt_loops) as [j|] eqn:Hfind.
  - apply find_loop_Some in Hfind as (dl & _ & Hlook & Hvert).
    rewrite decide_True.
    + simpl. by rewrite IH.
    + rewrite <- Hvert. apply list_elem_of_fmap_2.
      by eapply list_elem_of_lookup_2.
  - apply find_loop_None in Hfind. by rewrite decide_False.
Qed.

Lemma common_verts_from_elem i ref_loops tgt_loops c :
  c ∈ common_verts_from i ref_loops tgt_loops ↔
  ∃ k sl, ref_loops !! k = Some sl
    ∧ find_loop (l_vert sl) 0 tgt_loops = Some (cv_tgt_loop c)
    ∧ cv_vert c = l_vert sl ∧ cv_ref_loop c = i + k.
Proof.
  revert i. induction ref_loops as [|sl rest IH]; intros i; simpl.
  - split; [by intros ?%elem_of_nil | by intros (k & sl & ? & _)].
  - assert (c ∈ common_verts_from (S i) rest tgt_loops ↔
            ∃ k sl', (sl :: rest) !! S k = Some sl'
              ∧ find_loop (l_vert sl') 0 tgt_loops = Some (cv_tgt_loop c)
              ∧ cv_vert c = l_vert sl' ∧ cv_ref_loop c = i + S k) as Hrest.
    { rewrite IH. split; intros (k & sl' & ? & ? & ? & ?);
        exists k, sl'; (split_and!; [done..|lia]). }
    destruct (find_loop (l_vert sl) 0 tgt_loops) as [j|] eqn:Hfind.
    + rewrite elem_of_cons, Hrest. split.
      * intros [-> | (k & sl' & ?)].
        -- exists 0, sl. simpl. split_and!; [done..|lia].
        -- by exists (S k), sl'.
      * intros ([|k] & sl' & Hlook & Hf & Hv & Hi).
        -- left. simplify_eq/=. destruct c; simpl in *.
           f_equal; (lia || congruence).
        -- right. by exists k, sl'.
    + rewrite Hrest. split.
      * intros (k & sl' & ?). by exists (S k), sl'.
      * intros ([|k] & sl' & Hlook & Hf & Hv & Hi).
        -- simplify_eq/=; congruence.
        -- by exists k, sl'.
Qed.

Lemma other_verts_from_elem i loops cvs o :
  o ∈ other_verts_from i loops cvs ↔
  ∃ k sl, loops !! k = Some sl ∧ (l_vert sl ∉ cv_vert <$> cvs)
    ∧ ov_vert o = l_vert sl ∧ ov_loop o = i + k.
Proof.
  revert i. induction loops as [|sl rest IH]; intros i; simpl.
  - split; [by intros ?%elem_of_nil | by intros (k & sl & ? & _)].
  - assert (o ∈ other_verts_from (S i) rest cvs ↔
            ∃ k sl', (sl :: rest) !! S k = Some sl'
              ∧ (l_vert sl' ∉ cv_vert <$> cvs)
              ∧ ov_vert o = l_vert sl' ∧ ov_loop o = i + S k) as Hrest.
    { rewrite IH. split; intros (k & sl' & ? & ? & ? & ?);
        exists k, sl'; (split_and!; [done..|lia]). }
    unfold is_common. case_bool_decide as Hc.
    + rewrite Hrest. split.
      * intros (k & sl' & ?). by exists (S k), sl'.
      * intros ([|k] & sl' & Hlook & Hn & Hv & Hi).
        -- by simplify_eq/=.
        -- by exists k, sl'.
    + rewrite elem_of_cons, Hrest. split.
      * intros [-> | (k & sl' & ?)].
        -- exists 0, sl. simpl. split_and!; [done..|lia].
        -- by exists (S k), sl'.
      * intros ([|k] & sl' & Hlook & Hn & Hv & Hi).
        -- left. simplify_eq/=. destruct o; simpl in *.
           f_equal; (lia || congruence).
        -- right. by exists k, sl'.
Qed.

Lemma other_verts_from_NoDup i loops cvs :
  NoDup (ov_loop <$> other_verts_from i loops cvs).
Proof.
  revert i. induction loops as [|sl rest IH]; intros i; simpl.
  - constructor.
  - destruct (is_common cvs (l_vert sl)); [done|].
    rewrite fmap_cons. apply NoDup_cons. split; [|done]. simpl.
    intros (o & Ho & Hin)%list_elem_of_fmap.
    apply other_verts_from_elem in Hin as (k & sl' & _ & _ & _ & Hi). lia.
Qed.

Lemma common_verts_count ref_face tgt_face :
  wf_face ref_face →
  length (get_common_verts ref_face tgt_face)
  = size (shared_verts ref_face tgt_face).
Proof.
  intros Hwf. unfold get_common_verts, shared_verts, face_verts.
  rewrite <- (length_fmap cv_vert), common_verts_from_verts.
  rewrite <- (size_list_to_set (C := gset nat)) by by apply NoDup_filter.
  f_equal. apply set_eq. intros v.
  rewrite elem_of_intersection, !elem_of_list_to_set, list_elem_of_filter.
  tauto.
Qed.

Lemma set_face_shared_count bm props obj r t rf ref_face tgt_face :
  r ≠ Z.of_nat t → ref_obj props = Some obj →
  index_position (length (bm_faces bm)) r = inr rf →
  bm_faces bm !! rf = Some ref_face →
  bm_faces bm !! t = Some tgt_face →
  wf_face ref_face →
  size (shared_verts ref_face tgt_face) ≠ 2 →
  set_face bm props obj r t = inl (Cancel W_TWO_SHARED).
Proof.
  intros Hr Hobj Hpos Hrf Htf Hwf Hsize. unfold set_face.
  rewrite decide_False by done. rewrite decide_False by naive_solver.
  rewrite Hpos. cbn [mbind abort_bind].
  unfold getitem. rewrite Hrf, Htf. cbn [mbind abort_bind].
  rewrite decide_True; [done|]. by rewrite common_verts_count.
Qed.

(** C2: when [Set] comes to a pair of a reference face and a target face
    that do not share exactly two vertices, it reports "2 vertices must be
    shared among faces", returns CANCELLED and leaves the mesh as the
    faces before that pair left it: nothing is written for the pair. *)
Theorem set_rejects_shared_count sc obj bm pre face post bm1 t1
    rf ref_face tgt_face :
  let props := muv_props sc in
  let ref := current_ref (ref_face_index props) pre in
  bm_uv_layers bm ≠ 0 →
  select_targets sc bm = inr (pre ++ face :: post) →
  set_faces bm props obj (ref_face_index props) None pre = inr (bm1, t1) →
  ref ≠ Z.of_nat face → ref_obj props = Some obj →
  index_position (length (bm_faces bm1)) ref = inr rf →
  bm_faces bm1 !! rf = Some ref_face →
  bm_faces bm1 !! face = Some tgt_face →
  wf_face ref_face →
  size (shared_verts ref_face tgt_face) ≠ 2 →
  let o := MUV_OT_TextureWrap_Set_execute sc obj bm in
  set_face bm1 props obj ref face = inl (Cancel W_TWO_SHARED)
  ∧ ret o = CANCELLED
  ∧ reports o = ["2 vertices must be shared among faces"]
  ∧ out_bm o = bm1.
Proof.
  intros props ref Huv Hsel Hpre Hr Hobj Hpos Hrf Htf Hwf Hsize o.
  assert (set_face bm1 props obj ref face = inl (Cancel W_TWO_SHARED)) as Hstep
    by by eapply set_face_shared_count.
  split; [done|].
  unfold o, MUV_OT_TextureWrap_Set_execute. case_decide; [done|].
  rewrite Hsel, set_faces_app. fold props. rewrite Hpre. simpl.
  fold ref. by rewrite Hstep.
Qed.

(** ** Reading and writing UVs *)

Lemma loop_uv_lookup bm f l face loop :
  bm_faces bm !! f = Some face → f_loops face !! l = Some loop →
  loop_uv bm f l = Some (l_uv loop).
Proof. intros Hf Hl. unfold loop_uv. rewrite Hf. simpl. by rewrite Hl. Qed.

Lemma loop_uv_write_uv bm f l uv f' l' :
  loop_uv (write_uv bm f l uv) f' l'
  = if decide (f = f' ∧ l = l') then (λ _, uv) <$> loop_uv bm f' l'
    else loop_uv bm f' l'.
Proof.
  unfold loop_uv, write_uv. simpl. rewrite list_lookup_alter.
  destruct (decide (f = f')) as [<-|Hf].
  - destruct (bm_faces bm !! f) as [face|]; simpl; [|by case_decide].
    rewrite list_lookup_alter. destruct (decide (l = l')) as [<-|Hl].
    + rewrite decide_True by done. by destruct (f_loops face !! l).
    + by rewrite decide_False by (by intros [??]).
  - by rewrite decide_False by (by intros [??]).
Qed.

Lemma loop_uv_write_uv_is_Some bm f l uv f' l' :
  is_Some (loop_uv bm f' l') → is_Some (loop_uv (write_uv bm f l uv) f' l').
Proof.
  intros Hsome. rewrite loop_uv_write_uv. case_decide; [|done].
  by apply fmap_is_Some.
Qed.

Lemma loop_uv_apply_other_ne t bm uvs f l :
  (f = t → l ∉ ov_loop ∘ fst <$> uvs) →
  loop_uv (apply_other t bm uvs) f l = loop_uv bm f l.
Proof.
  revert bm. induction uvs as [|[info uv] rest IH]; intros bm Hn; [done|].
  unfold apply_other in *. simpl. rewrite IH.
  - rewrite loop_uv_write_uv, decide_False; [done|].
    intros [-> <-]. apply Hn; [done|]. by left.
  - intros ->. specialize (Hn eq_refl). rewrite fmap_cons in Hn.
    by apply not_elem_of_cons in Hn as [_ ?].
Qed.

Lemma loop_uv_apply_other t bm uvs info uv :
  NoDup (ov_loop ∘ fst <$> uvs) → (info, uv) ∈ uvs →
  is_Some (loop_uv bm t (ov_loop info)) →
  loop_uv (apply_other t bm uvs) t (ov_loop info) = Some uv.
Proof.
  revert bm. induction uvs as [|[info' uv'] rest IH]; intros bm Hnd Hin Hsome.
  { by apply elem_of_nil in Hin. }
  rewrite fmap_cons in Hnd. apply NoDup_cons in Hnd as [Hfresh Hnd].
  unfold apply_other in *. simpl in *.
  apply elem_of_cons in Hin as [[= <- <-]|Hin].
  - pose proof (loop_uv_apply_other_ne t
      (write_uv bm t (ov_loop info) uv) rest t (ov_loop info)) as Hne.
    unfold apply_other in Hne. rewrite Hne by done.
    rewrite loop_uv_write_uv, decide_True by done.
    by destruct Hsome as [x ->].
  - apply IH; [done..|]. by apply loop_uv_write_uv_is_Some.
Qed.

Lemma apply_common_two rf t bm c0 c1 u0 u1 :
  rf ≠ t →
  loop_uv bm rf (cv_ref_loop c0) = Some u0 →
  loop_uv bm rf (cv_ref_loop c1) = Some u1 →
  apply_common rf t bm [c0; c1]
  = write_uv (write_uv bm t (cv_tgt_loop c0) u0) t (cv_tgt_loop c1) u1.
Proof.
  intros Hne H0 H1. unfold apply_common. simpl. rewrite H0.
  rewrite loop_uv_write_uv, decide_False by (by intros [??]). by rewrite H1.
Qed.

Lemma projected_loops co ref h v (others : list OtherVert) :
  ov_loop ∘ fst <$> (projected co ref h v <$> others) = ov_loop <$> others.
Proof. rewrite <- list_fmap_compose. by apply list_fmap_ext. Qed.

(** What the two entries of [common_verts] of a projection are. *)
Lemma common_vert_loops ref_face tgt_face c :
  c ∈ get_common_verts ref_face tgt_face →
  ∃ sl dl, f_loops ref_face !! cv_ref_loop c = Some sl
    ∧ f_loops tgt_face !! cv_tgt_loop c = Some dl
    ∧ l_vert sl = cv_vert c ∧ l_vert dl = cv_vert c.
Proof.
  intros (k & sl & Hk & Hfind & Hv & Hi)%common_verts_from_elem.
  apply find_loop_Some in Hfind as (dl & _ & Hdl & Hvd).
  rewrite Nat.sub_0_r in Hdl. simpl in Hi. subst k.
  exists sl, dl. split_and!; congruence.
Qed.

Lemma common_verts_distinct ref_face tgt_face c0 c1 :
  wf_face ref_face →
  get_common_verts ref_face tgt_face = [c0; c1] →
  cv_vert c0 ≠ cv_vert c1.
Proof.
  intros Hwf Hcommon.
  assert (NoDup (cv_vert <$> [c0; c1])) as Hnd.
  { rewrite <- Hcommon. unfold get_common_verts.
    rewrite common_verts_from_verts. by apply NoDup_filter. }
  simpl in Hnd. apply NoDup_cons in Hnd as [Hn _].
  intros Heq. apply Hn. rewrite Heq. by left.
Qed.

(** A face is never projected onto itself. *)
Lemma same_face_no_others face :
  get_other_verts face (get_common_verts face face) = [].
Proof.
  apply elem_of_nil_inv. intros o (k & sl & Hk & Hn & _)%other_verts_from_elem.
  apply Hn. unfold get_common_verts. rewrite common_verts_from_verts.
  assert (l_vert sl ∈ l_vert <$> f_loops face)
    by (apply list_elem_of_fmap_2; by eapply list_elem_of_lookup_2).
  by apply list_elem_of_filter.
Qed.

(** The mesh after a projection, loop by loop. *)
Lemma projection_writes bm props obj r t bm' rf ref_face tgt_face :
  set_face bm props obj r t = inr bm' →
  index_position (length (bm_faces bm)) r = inr rf →
  bm_faces bm !! rf = Some ref_face →
  bm_faces bm !! t = Some tgt_face →
  ∃ c0 c1 ref uv_hdiff uv_vdiff u0 u1,
    rf ≠ t
    ∧ get_common_verts ref_face tgt_face = [c0; c1]
    ∧ reference_info bm rf [c0; c1] (get_other_verts ref_face [c0; c1])
      = inr (ref, uv_hdiff, uv_vdiff)
    ∧ loop_uv bm rf (cv_ref_loop c0) = Some u0
    ∧ loop_uv bm rf (cv_ref_loop c1) = Some u1
    ∧ bm' = apply_other t
              (write_uv (write_uv bm t (cv_tgt_loop c0) u0) t (cv_tgt_loop c1) u1)
              (projected (bm_co bm) ref uv_hdiff uv_vdiff
                 <$> get_other_verts tgt_face [c0; c1]).
Proof.
  intros Hstep Hpos Hrf Htf.
  destruct (set_face_inr _ _ _ _ _ _ Hstep)
    as [rf' ref_face' tgt_face' c0 c1 ref h v
        Hr Hobj Hpos' Hrf' Htf' Hcommon Hro Href Hto ->].
  rewrite Hpos in Hpos'. injection Hpos' as <-.
  rewrite Hrf in Hrf'. injection Hrf' as <-.
  rewrite Htf in Htf'. injection Htf' as <-.
  assert (rf ≠ t) as Hne.
  { intros ->. rewrite Hrf in Htf. injection Htf as <-.
    apply Hro. rewrite <- Hcommon. apply same_face_no_others. }
  destruct (common_vert_loops ref_face tgt_face c0)
    as (sl0 & _ & Hsl0 & _); [rewrite Hcommon; by left|].
  destruct (common_vert_loops ref_face tgt_face c1)
    as (sl1 & _ & Hsl1 & _); [rewrite Hcommon; right; by left|].
  pose proof (loop_uv_lookup _ _ _ _ _ Hrf Hsl0) as Hu0.
  pose proof (loop_uv_lookup _ _ _ _ _ Hrf Hsl1) as Hu1.
  exists c0, c1, ref, h, v, (l_uv sl0), (l_uv sl1).
  split_and!; try done. by rewrite (apply_common_two _ _ _ _ _ _ _ Hne Hu0 Hu1).
Qed.

(** ** Seam continuity *)

(** C1: after a successful projection the two faces share exactly two
    vertices, and at each of them the UV of the loop of the target face
    is the UV that the loop of the reference face on the same vertex
    holds, as it was read from that loop. *)
Theorem set_face_copies_shared_uv bm props obj r t bm' rf ref_face tgt_face :
  set_face bm props obj r t = inr bm' →
  index_position (length (bm_faces bm)) r = inr rf →
  bm_faces bm !! rf = Some ref_face →
  bm_faces bm !! t = Some tgt_face →
  wf_face ref_face → wf_face tgt_face →
  size (shared_verts ref_face tgt_face) = 2
  ∧ ∀ i j sl dl,
      f_loops ref_face !! i = Some sl →
      f_loops tgt_face !! j = Some dl →
      l_vert sl = l_vert dl →
      loop_uv bm' t j = Some (l_uv sl)
      ∧ loop_uv bm' rf i = Some (l_uv sl)
      ∧ loop_uv bm rf i = Some (l_uv sl).
Proof.
  intros Hstep Hpos Hrf Htf Hwr Hwt.
  destruct (projection_writes _ _ _ _ _ _ _ _ _ Hstep Hpos Hrf Htf)
    as (c0 & c1 & ref & h & v & u0 & u1 & Hne & Hcommon & _ & Hu0 & Hu1 & ->).
  split; [by rewrite <- common_verts_count, Hcommon|].
  intros i j sl dl Hi Hj Hv.
  pose proof (loop_uv_lookup _ _ _ _ _ Hrf Hi) as Hread.
  assert (loop_uv (write_uv (write_uv bm t (cv_tgt_loop c0) u0) t
                     (cv_tgt_loop c1) u1) t j = Some (l_uv sl)) as Hcopied.
  { assert ({| cv_vert := l_vert sl; cv_ref_loop := i; cv_tgt_loop := j |}
            ∈ [c0; c1]) as Hc.
    { rewrite <- Hcommon. apply common_verts_from_elem. exists i, sl. simpl.
      split_and!; try done. rewrite Hv.
      by rewrite (find_loop_NoDup 0 _ j dl). }
    pose proof (common_verts_distinct _ _ _ _ Hwr Hcommon) as Hdist.
    destruct (common_vert_loops ref_face tgt_face c0)
      as (_ & dl0 & _ & Hdl0 & _ & Hv0); [rewrite Hcommon; by left|].
    destruct (common_vert_loops ref_face tgt_face c1)
      as (_ & dl1 & _ & Hdl1 & _ & Hv1); [rewrite Hcommon; right; by left|].
    pose proof (loop_uv_lookup _ _ _ _ _ Htf Hj) as Htgt.
    rewrite !loop_uv_write_uv, Htgt.
    apply elem_of_cons in Hc as [<-|Hc]; simpl in *.
    - rewrite decide_False.
      + rewrite decide_True by done. simpl.
        rewrite Hu0 in Hread. exact Hread.
      + intros [_ Heq]. rewrite Heq in Hdl1. congruence.
    - apply list_elem_of_singleton in Hc as <-. simpl in *.
      rewrite decide_True by done. simpl.
      rewrite Hu1 in Hread. by case_decide. }
  split_and!; [| |done]; last first.
  { rewrite loop_uv_apply_other_ne by (by intros ?).
    rewrite !loop_uv_write_uv. by rewrite !decide_False by (by intros [? _]). }
  rewrite loop_uv_apply_other_ne; [done|]. intros _.
  rewrite projected_loops.
  intros (o & Ho & (k & dl' & Hk & Hn & Hov & Hl)%other_verts_from_elem)
    %list_elem_of_fmap.
  simpl in Hl. subst k. rewrite <- Ho, Hj in Hk. injection Hk as <-.
  apply Hn. rewrite <- Hcommon. unfold get_common_verts.
  rewrite common_verts_from_verts. apply list_elem_of_filter.
  split; [|rewrite <- Hv]; apply list_elem_of_fmap_2;
    by eapply list_elem_of_lookup_2.
Qed.

(** ** The projected UVs *)

(** C5: after a successful projection, the UV of every loop of the target
    face on a vertex that the reference face does not have is
    [Auv + UVhdiff * factH + UVvdiff * factV], with
    [factV = |tgt_vdiff| / |vdiff| * s(tgt_vdiff . (B - A)) * s(vdiff . (B - A))]
    and [factH = (- |tgt_hdiff|) / |hdiff|], where [s] is
    [math.copysign(1, .)] and so is [1] or [-1], whatever its argument.
    [A], [B], [Auv] and the reference offsets are those of the shared edge
    as the degenerate-edge guard left them. *)
Theorem set_face_projects_unshared bm props obj r t bm' rf ref_face tgt_face :
  set_face bm props obj r t = inr bm' →
  index_position (length (bm_faces bm)) r = inr rf →
  bm_faces bm !! rf = Some ref_face →
  bm_faces bm !! t = Some tgt_face →
  ∃ c0 c1 o0 others a_uv b_uv ouv0 ref uv_hdiff uv_vdiff,
    get_common_verts ref_face tgt_face = [c0; c1]
    ∧ get_other_verts ref_face [c0; c1] = o0 :: others
    ∧ loop_uv bm rf (cv_ref_loop c0) = Some a_uv
    ∧ loop_uv bm rf (cv_ref_loop c1) = Some b_uv
    ∧ loop_uv bm rf (ov_loop o0) = Some ouv0
    ∧ ref = shared_edge (bm_co bm (cv_vert c0)) (bm_co bm (cv_vert c1))
              a_uv b_uv (bm_co bm (ov_vert o0))
    ∧ (uv_hdiff, uv_vdiff) = decompose (cuv0 ref) (cuv1 ref) ouv0
    ∧ (∀ k dl,
         f_loops tgt_face !! k = Some dl →
         l_vert dl ∉ face_verts ref_face →
         loop_uv bm' t k
         = Some (wrap_uv copysign1 ref uv_hdiff uv_vdiff (bm_co bm (l_vert dl))))
    ∧ (∀ d, copysign1 d = fone ∨ copysign1 d = fneg fone).
Proof.
  intros Hstep Hpos Hrf Htf.
  destruct (projection_writes _ _ _ _ _ _ _ _ _ Hstep Hpos Hrf Htf)
    as (c0 & c1 & ref & h & v & u0 & u1 & Hne & Hcommon & Href & Hu0 & Hu1 & ->).
  destruct (get_other_verts ref_face [c0; c1]) as [|o0 others] eqn:Hothers;
    [done|].
  apply reference_info_inr in Href
    as (a_uv & b_uv & ouv0 & Ha & Hb & Ho & Hr & Huv).
  exists c0, c1, o0, others, a_uv, b_uv, ouv0, ref, h, v.
  split_and!; try done; [|apply copysign1_cases].
  intros k dl Hk Hunshared.
  set (info := {| ov_vert := l_vert dl; ov_loop := k |}).
  assert (info ∈ get_other_verts tgt_face [c0; c1]) as Hin.
  { apply other_verts_from_elem. exists k, dl. split_and!; try done.
    intros Hc. apply Hunshared. rewrite <- Hcommon in Hc.
    unfold get_common_verts in Hc. rewrite common_verts_from_verts in Hc.
    by apply list_elem_of_filter in Hc as [_ ?]. }
  apply (loop_uv_apply_other t _ _ info).
  - rewrite projected_loops. apply other_verts_from_NoDup.
  - by apply (list_elem_of_fmap_2 (projected (bm_co bm) ref h v)).
  - do 2 apply loop_uv_write_uv_is_Some. simpl.
    by rewrite (loop_uv_lookup _ _ _ _ _ Htf Hk).
Qed.

End Properties.

(** * Further properties of the operators *)

Section Operators_properties.
Context `{M : Mathutils}.
Implicit Types (bm : BMesh) (props : Props) (sc : Scene) (obj : nat).

(** ** What the writes leave alone *)

Lemma same_shape_refl bm : same_shape bm bm.
Proof. by unfold same_shape. Qed.

Lemma same_shape_trans bm1 bm2 bm3 :
  same_shape bm1 bm2 → same_shape bm2 bm3 → same_shape bm1 bm3.
Proof.
  intros (? & ? & ? & ?) (? & ? & ? & ?). unfold same_shape.
  split_and!; congruence.
Qed.

Lemma same_shape_length bm bm' :
  same_shape bm bm' → length (bm_faces bm') = length (bm_faces bm).
Proof.
  intros [Hfaces _]. apply (f_equal length) in Hfaces.
  by rewrite !length_fmap in Hfaces.
Qed.

Lemma same_shape_lookup bm bm' f face :
  same_shape bm bm' → bm_faces bm !! f = Some face →
  ∃ face', bm_faces bm' !! f = Some face' ∧ face_shape face' = face_shape face.
Proof.
  intros [Hfaces _] Hf. apply (f_equal (λ l, l !! f)) in Hfaces.
  rewrite !list_lookup_fmap, Hf in Hfaces.
  destruct (bm_faces bm' !! f) as [face'|]; [|done].
  exists face'. split; [done|].
  cbv [fmap option_fmap option_map] in Hfaces. congruence.
Qed.

Lemma set_uv_loops_verts uv (l : nat) (loops : list BMLoop) :
  l_vert <$> alter (set_uv uv) l loops = l_vert <$> loops.
Proof.
  apply list_eq. intros i. rewrite !list_lookup_fmap, list_lookup_alter.
  case_decide; [subst|done]. by destruct (loops !! i).
Qed.

Lemma write_uv_shape bm f l uv : same_shape bm (write_uv bm f l uv).
Proof.
  unfold same_shape, write_uv. simpl. split_and!; try done.
  apply list_eq. intros i. rewrite !list_lookup_fmap, list_lookup_alter.
  case_decide; [subst|done]. destruct (bm_faces bm !! i) as [face|]; [|done].
  simpl. unfold face_shape, face_verts, alter_loops. simpl.
  by rewrite set_uv_loops_verts.
Qed.

Lemma write_uv_other_face bm f l uv f' :
  f' ≠ f → bm_faces (write_uv bm f l uv) !! f' = bm_faces bm !! f'.
Proof. intros Hne. unfold write_uv. simpl. by rewrite list_lookup_alter_ne. Qed.

Lemma apply_common_shape rf t bm cvs : same_shape bm (apply_common rf t bm cvs).
Proof.
  revert bm. induction cvs as [|c cvs IH]; intros bm; [apply same_shape_refl|].
  unfold apply_common in *. simpl.
  destruct (loop_uv bm rf (cv_ref_loop c)); [|apply IH].
  eapply same_shape_trans; [apply write_uv_shape|apply IH].
Qed.

Lemma apply_other_shape t bm uvs : same_shape bm (apply_other t bm uvs).
Proof.
  revert bm. induction uvs as [|iu uvs IH]; intros bm; [apply same_shape_refl|].
  unfold apply_other in *. simpl.
  eapply same_shape_trans; [apply write_uv_shape|apply IH].
Qed.

Lemma apply_common_other_face rf t bm cvs f :
  f ≠ t → bm_faces (apply_common rf t bm cvs) !! f = bm_faces bm !! f.
Proof.
  intros Hne. revert bm. induction cvs as [|c cvs IH]; intros bm; [done|].
  unfold apply_common in *. simpl.
  destruct (loop_uv bm rf (cv_ref_loop c)); [|apply IH].
  rewrite IH. by apply write_uv_other_face.
Qed.

Lemma apply_other_other_face t bm uvs f :
  f ≠ t → bm_faces (apply_other t bm uvs) !! f = bm_faces bm !! f.
Proof.
  intros Hne. revert bm. induction uvs as [|iu uvs IH]; intros bm; [done|].
  unfold apply_other in *. simpl. rewrite IH. by apply write_uv_other_face.
Qed.

Lemma set_face_shape bm props obj r t bm' :
  set_face bm props obj r t = inr bm' → same_shape bm bm'.
Proof.
  intros Hstep. destruct (set_face_inr _ _ _ _ _ _ Hstep). subst bm'.
  eapply same_shape_trans; [apply apply_common_shape|apply apply_other_shape].
Qed.

Lemma set_face_other_face bm props obj r t bm' f :
  set_face bm props obj r t = inr bm' → f ≠ t →
  bm_faces bm' !! f = bm_faces bm !! f.
Proof.
  intros Hstep Hne. destruct (set_face_inr _ _ _ _ _ _ Hstep). subst bm'.
  rewrite apply_other_other_face, apply_common_other_face; done.
Qed.

(** The mesh a run of the loop ends with. *)
Lemma set_faces_shape bm props obj r t ts :
  match set_faces bm props obj r t ts with
  | inl (_, bm') | inr (bm', _) => same_shape bm bm'
  end.
Proof.
  revert bm r t. induction ts as [|face rest IH]; intros bm r t; simpl.
  - apply same_shape_refl.
  - destruct (set_face bm props obj r face) as [a|bm1] eqn:Hstep;
      [apply same_shape_refl|].
    specialize (IH bm1 (Z.of_nat face) (Some face)).
    apply set_face_shape in Hstep.
    destruct (set_faces bm1 props obj _ _ rest) as [[a bm']|[bm' t']];
      by eapply same_shape_trans.
Qed.

Lemma set_faces_other_face bm props obj r t ts f :
  f ∉ ts →
  match set_faces bm props obj r t ts with
  | inl (_, bm') | inr (bm', _) => bm_faces bm' !! f = bm_faces bm !! f
  end.
Proof.
  revert bm r t. induction ts as [|face rest IH]; intros bm r t Hf; simpl; [done|].
  apply not_elem_of_cons in Hf as [Hne Hf].
  destruct (set_face bm props obj r face) as [a|bm1] eqn:Hstep; [done|].
  specialize (IH bm1 (Z.of_nat face) (Some face) Hf).
  pose proof (set_face_other_face _ _ _ _ _ _ f Hstep Hne) as Hsame.
  destruct (set_faces bm1 props obj _ _ rest) as [[a bm']|[bm' t']]; congruence.
Qed.

(** The mesh of the outcome of [Set], whatever the outcome. *)
Lemma set_execute_mesh sc obj bm :
  let o := MUV_OT_TextureWrap_Set_execute sc obj bm in
  out_bm o = bm
  ∨ ∃ ts, bm_uv_layers bm ≠ 0 ∧ select_targets sc bm = inr ts
      ∧ match set_faces bm (muv_props sc) obj (ref_face_index (muv_props sc)) None ts with
        | inl (_, bm') | inr (bm', _) => out_bm o = bm'
        end.
Proof.
  unfold MUV_OT_TextureWrap_Set_execute. case_decide; [by left|].
  destruct (select_targets sc bm) as [a|ts] eqn:Hsel; [left; by destruct a|].
  right. exists ts. split_and!; [done..|].
  destruct (set_faces _ _ _ _ _ ts) as [[a bm']|[bm' t']]; [by destruct a|].
  destruct (muv_texture_wrap_set_and_refer sc); [by destruct t'|done].
Qed.

(** ** The targets *)

Lemma selected_from_elem i faces t :
  t ∈ selected_from i faces ↔
  ∃ k face, faces !! k = Some face ∧ f_select face = true ∧ t = i + k.
Proof.
  revert i. induction faces as [|f rest IH]; intros i; simpl.
  - split; [by intros ?%elem_of_nil | by intros (k & face & ? & _)].
  - assert (t ∈ selected_from (S i) rest ↔
            ∃ k face, (f :: rest) !! S k = Some face ∧ f_select face = true
              ∧ t = i + S k) as Hrest.
    { rewrite IH. split; intros (k & face & ? & ? & ?);
        exists k, face; (split_and!; [done..|lia]). }
    destruct (f_select f) eqn:Hsel.
    + rewrite elem_of_cons, Hrest. split.
      * intros [-> | (k & face & ?)].
        -- exists 0, f. simpl. split_and!; [done..|lia].
        -- by exists (S k), face.
      * intros ([|k] & face & Hlook & Hs & ->).
        -- left. lia.
        -- right. by exists k, face.
    + rewrite Hrest. split.
      * intros (k & face & ?). by exists (S k), face.
      * intros ([|k] & face & Hlook & Hs & ->).
        -- simplify_eq/=. congruence.
        -- by exists k, face.
Qed.

Lemma select_targets_selected sc bm ts t :
  select_targets sc bm = inr ts → t ∈ ts →
  ∃ face, bm_faces bm !! t = Some face ∧ f_select face = true.
Proof.
  unfold select_targets.
  destruct (muv_texture_wrap_selseq sc); case_decide; intros [= <-] Hin.
  - apply list_elem_of_omap in Hin as (hist & _ & Hsome).
    destruct hist as [v|e|f]; try done.
    destruct (bm_faces bm !! f) as [face|] eqn:Hf; [|done].
    destruct (f_select face) eqn:Hs; [|done].
    injection Hsome as <-. by exists face.
  - apply selected_from_elem in Hin as (k & face & Hk & Hs & ->).
    by exists face.
Qed.

(** ** The frame of [Set] *)

Lemma set_execute_shape sc obj bm :
  same_shape bm (out_bm (MUV_OT_TextureWrap_Set_execute sc obj bm)).
Proof.
  destruct (set_execute_mesh sc obj bm) as [->|(ts & _ & _ & Hrun)];
    [apply same_shape_refl|].
  pose proof (set_faces_shape bm (muv_props sc) obj
                (ref_face_index (muv_props sc)) None ts) as Hshape.
  destruct (set_faces _ _ _ _ _ ts) as [[a bm']|[bm' t']]; by rewrite Hrun.
Qed.

(** X1: whatever its outcome, [Set] writes UVs and nothing else: the mesh
    it leaves has the same number of faces, each with the selection flag,
    the number of loops and the vertices it had, and the same UV layers,
    selection history and coordinates. *)
Theorem set_changes_only_uvs sc obj bm :
  let bm' := out_bm (MUV_OT_TextureWrap_Set_execute sc obj bm) in
  length (bm_faces bm') = length (bm_faces bm)
  ∧ (∀ f face, bm_faces bm !! f = Some face →
       ∃ face', bm_faces bm' !! f = Some face'
         ∧ f_select face' = f_select face
         ∧ length (f_loops face') = length (f_loops face)
         ∧ face_verts face' = face_verts face)
  ∧ bm_uv_layers bm' = bm_uv_layers bm
  ∧ bm_select_history bm' = bm_select_history bm
  ∧ bm_co bm' = bm_co bm.
Proof.
  intros bm'. pose proof (set_execute_shape sc obj bm) as Hshape. fold bm' in Hshape.
  split_and!; [by apply same_shape_length| |by destruct Hshape as (_ & ? & ? & ?)..].
  intros f face Hf.
  destruct (same_shape_lookup _ _ _ _ Hshape Hf) as (face' & Hf' & Hs).
  exists face'. unfold face_shape in Hs. injection Hs as Hsel Hverts.
  split_and!; try done.
  apply (f_equal length) in Hverts. unfold face_verts in Hverts.
  by rewrite !length_fmap in Hverts.
Qed.

(** X2: [Set] never changes a face that is not selected, whatever the mode
    and the outcome. *)
Theorem set_keeps_unselected_faces sc obj bm f face :
  bm_faces bm !! f = Some face → f_select face = false →
  bm_faces (out_bm (MUV_OT_TextureWrap_Set_execute sc obj bm)) !! f = Some face.
Proof.
  intros Hf Hsel.
  destruct (set_execute_mesh sc obj bm) as [->|(ts & _ & Htargets & Hrun)]; [done|].
  assert (f ∉ ts) as Hnotin.
  { intros Hin.
    destruct (select_targets_selected _ _ _ _ Htargets Hin) as (face' & Hf' & Hs).
    congruence. }
  pose proof (set_faces_other_face bm (muv_props sc) obj
                (ref_face_index (muv_props sc)) None ts f Hnotin) as Hframe.
  destruct (set_faces _ _ _ _ _ ts) as [[a bm']|[bm' t']];
    rewrite Hrun; congruence.
Qed.

(** ** [Refer] *)

Lemma refer_execute_cases sc obj bm :
  let o := MUV_OT_TextureWrap_Refer_execute sc obj bm in
  (bm_uv_layers bm = 0 ∧ o = cancelled W_NO_UV_MAP bm (muv_props sc))
  ∨ (bm_uv_layers bm ≠ 0 ∧ length (selected_faces bm) ≠ 1
     ∧ o = cancelled W_SELECT_ONLY_ONE bm (muv_props sc))
  ∨ (∃ face f, bm_uv_layers bm ≠ 0 ∧ selected_faces bm = [face]
       ∧ bm_faces bm !! face = Some f ∧ f_select f = true
       ∧ o = finished bm {| ref_face_index := Z.of_nat face; ref_obj := Some obj |}).
Proof.
  unfold MUV_OT_TextureWrap_Refer_execute.
  case_decide as Huv; [by left|]. right.
  case_decide as Hlen; [by left|]. right.
  destruct (selected_faces bm) as [|face [|face' rest]] eqn:Hsel;
    simpl in Hlen; try lia.
  assert (face ∈ selected_faces bm) as Hin by (rewrite Hsel; by left).
  apply selected_from_elem in Hin as (k & f & Hk & Hs & ->).
  by exists (0 + k), f.
Qed.


(** ** The persisted reference stays valid *)

Lemma valid_reference_init bm : valid_reference bm init_props.
Proof. by left. Qed.

(** X4: a [Refer] that finishes leaves the edited object as the
    reference object and a reference index that names a face of the mesh;
    one that does not finish leaves the reference as valid as it was. *)
Theorem refer_keeps_reference_valid sc obj bm :
  let o := MUV_OT_TextureWrap_Refer_execute sc obj bm in
  (ret o = FINISHED →
     ref_obj (out_props o) = Some obj
     ∧ (0 ≤ ref_face_index (out_props o)
          < Z.of_nat (length (bm_faces (out_bm o))))%Z
     ∧ valid_reference (out_bm o) (out_props o))
  ∧ (ret o ≠ FINISHED → valid_reference bm (muv_props sc) →
     valid_reference (out_bm o) (out_props o)).
Proof.
  intros o.
  destruct (refer_execute_cases sc obj bm)
    as [[Huv Ho]|[(Huv & Hlen & Ho)|(face & f & Huv & Hsel & Hf & Hs & Ho)]];
    fold o in Ho; rewrite Ho; simpl; split; try done.
  intros _. apply lookup_lt_Some in Hf.
  split_and!; [done|lia..|]. right. simpl. lia.
Qed.

(** X5: [Set] keeps the persisted reference valid: after it, the reference
    still names a face of the mesh, or was never captured. *)
Theorem set_keeps_reference_valid sc obj bm :
  let o := MUV_OT_TextureWrap_Set_execute sc obj bm in
  valid_reference bm (muv_props sc) →
  valid_reference (out_bm o) (out_props o).
Proof.
  intros o Hvalid.
  pose proof (same_shape_length _ _ (set_execute_shape sc obj bm)) as Hlen.
  fold o in Hlen.
  destruct (set_execute_props sc obj bm) as [Hkeep Hset]. fold o in Hkeep, Hset.
  unfold valid_reference. rewrite Hlen.
  destruct (decide (ret o = FINISHED)) as [Hret|Hret];
    [|by rewrite Hkeep by by left].
  destruct (muv_texture_wrap_set_and_refer sc) eqn:Hopt;
    [|by rewrite Hkeep by by right].
  destruct (Hset Hret eq_refl) as (ts & t & Hsel & Hlast & ->). simpl.
  destruct Hvalid as [Hnone|_]; [by left|]. right.
  assert (t ∈ ts) as Hin.
  { apply last_Some in Hlast as [l' ->]. apply elem_of_app. right. by left. }
  destruct (select_targets_selected _ _ _ _ Hsel Hin) as (face & Hf & _).
  apply lookup_lt_Some in Hf. lia.
Qed.

(** ** Exceptions *)









(** X7: a persisted reference that no longer names a face of the mesh,
    the index being below [-len] or at least [len] for [len] faces, makes
    [Set] raise [IndexError] as soon as the selection and the object pass
    their checks; the mesh and the persisted state stay as they were. *)
Theorem set_stale_reference_raises sc obj bm ts :
  let props := muv_props sc in
  let len := Z.of_nat (length (bm_faces bm)) in
  bm_uv_layers bm ≠ 0 →
  select_targets sc bm = inr ts →
  ref_obj props = Some obj →
  ¬ (- len ≤ ref_face_index props < len)%Z →
  MUV_OT_TextureWrap_Set_execute sc obj bm = raised IndexError bm props.
Proof.
  intros props len Huv Hsel Hobj Hrange.
  unfold MUV_OT_TextureWrap_Set_execute. case_decide; [done|]. rewrite Hsel.
  destruct (select_targets_cons _ _ _ Hsel) as (face & rest & ->).
  assert (face < length (bm_faces bm)) as Hface.
  { destruct (select_targets_selected _ _ _ face Hsel) as (f & Hf & _); [by left|].
    by apply lookup_lt_Some in Hf. }
  simpl. fold props. unfold set_face.
  rewrite decide_False by (subst len; lia).
  rewrite decide_False by (by intros ?).
  unfold index_position. cbv zeta.
  destruct (decide (ref_face_index props < 0)%Z);
    (rewrite decide_False by (subst len; lia)); done.
Qed.

(** ** The selection of a mesh of the same shape *)

Lemma selected_from_shape i (faces faces' : list BMFace) :
  face_shape <$> faces' = face_shape <$> faces →
  selected_from i faces' = selected_from i faces.
Proof.
  revert i faces'. induction faces as [|f rest IH]; intros i [|f' rest'] Heq;
    try done.
  simpl in *. injection Heq as Hsel _ Hrest.
  rewrite Hsel. by rewrite (IH (S i) rest').
Qed.

Lemma select_targets_shape sc bm bm' :
  same_shape bm bm' → select_targets sc bm' = select_targets sc bm.
Proof.
  intros (Hfaces & _ & Hhist & _). unfold select_targets.
  assert (history_faces bm' = history_faces bm) as ->.
  { unfold history_faces. rewrite Hhist. apply list_omap_ext.
    apply Forall_Forall2_diag, Forall_true. intros [v|e|f]; try done.
    apply (f_equal (λ l, l !! f)) in Hfaces. rewrite !list_lookup_fmap in Hfaces.
    destruct (bm_faces bm' !! f) as [face'|], (bm_faces bm !! f) as [face|];
      try done.
    cbv [fmap option_fmap option_map face_shape] in Hfaces.
    by replace (f_select face') with (f_select face) by congruence. }
  assert (selected_faces bm' = selected_faces bm) as ->
    by by apply selected_from_shape.
  done.
Qed.

Lemma select_targets_with_props sc props bm :
  select_targets (with_props sc props) bm = select_targets sc bm.
Proof. done. Qed.

(** ** A face is not projected onto itself *)

Lemma set_on_reference_face sc obj bm face rest :
  bm_uv_layers bm ≠ 0 →
  select_targets sc bm = inr (face :: rest) →
  ref_face_index (muv_props sc) = Z.of_nat face →
  MUV_OT_TextureWrap_Set_execute sc obj bm
  = cancelled W_SELECT_DIFFERENT bm (muv_props sc).
Proof.
  intros Huv Hsel Href. unfold MUV_OT_TextureWrap_Set_execute.
  case_decide; [done|]. rewrite Hsel. simpl. unfold set_face.
  by rewrite decide_True.
Qed.

(** X8: outside sequence mode, a [Set] that follows a successful [Refer]
    without a change of selection is cancelled with "Must select different
    face" and changes nothing: the face referred to is the target. *)
Theorem refer_then_set_cancels sc obj bm :
  muv_texture_wrap_selseq sc = false →
  let o1 := MUV_OT_TextureWrap_Refer_execute sc obj bm in
  ret o1 = FINISHED →
  MUV_OT_TextureWrap_Set_execute (with_props sc (out_props o1)) obj (out_bm o1)
  = cancelled W_SELECT_DIFFERENT bm (out_props o1).
Proof.
  intros Hmode o1 Hfin.
  destruct (refer_execute_cases sc obj bm)
    as [[_ Ho]|[(_ & _ & Ho)|(face & f & Huv & Hsel & _ & _ & Ho)]];
    fold o1 in Ho; try (by rewrite Ho in Hfin).
  assert (out_bm o1 = bm) as Hbm by by rewrite Ho.
  assert (out_props o1 = {| ref_face_index := Z.of_nat face; ref_obj := Some obj |})
    as Hp by by rewrite Ho.
  rewrite Hbm.
  apply (set_on_reference_face (with_props sc (out_props o1)) obj bm face []);
    [done| |].
  - rewrite select_targets_with_props. unfold select_targets.
    rewrite Hmode, Hsel. by rewrite decide_False by (simpl; lia).
  - simpl. by rewrite Hp.
Qed.

(** X9: outside sequence mode and with set-and-refer on, a [Set] that
    follows a [Set] that finished, without a change of selection, is
    cancelled with "Must select different face" and leaves the UVs of the
    first [Set] in place: the target has become the reference. *)
Theorem set_then_set_cancels sc obj bm :
  muv_texture_wrap_selseq sc = false →
  muv_texture_wrap_set_and_refer sc = true →
  let o1 := MUV_OT_TextureWrap_Set_execute sc obj bm in
  ret o1 = FINISHED →
  MUV_OT_TextureWrap_Set_execute (with_props sc (out_props o1)) obj (out_bm o1)
  = cancelled W_SELECT_DIFFERENT (out_bm o1) (out_props o1).
Proof.
  intros Hmode Hopt o1 Hfin.
  pose proof (set_execute_shape sc obj bm) as Hshape. fold o1 in Hshape.
  destruct (set_execute_props sc obj bm) as [_ Hset]. fold o1 in Hset.
  destruct (Hset Hfin Hopt) as (ts & t & Hsel & Hlast & Hp).
  assert (ts = [t]) as ->.
  { revert Hsel Hlast. unfold select_targets. rewrite Hmode.
    case_decide; [done|]. intros [= <-].
    destruct (selected_faces bm) as [|x [|y l]]; simpl in *; try lia.
    by intros [= ->]. }
  assert (bm_uv_layers bm ≠ 0) as Huv.
  { intros Huv. unfold o1, MUV_OT_TextureWrap_Set_execute in Hfin.
    by rewrite decide_True in Hfin. }
  apply (set_on_reference_face (with_props sc (out_props o1)) obj (out_bm o1) t []).
  - destruct Hshape as (_ & -> & _). done.
  - by rewrite select_targets_with_props, (select_targets_shape sc bm).
  - simpl. by rewrite Hp.
Qed.

(** ** Projecting twice *)

Lemma find_loop_ext v j (loops loops' : list BMLoop) :
  l_vert <$> loops' = l_vert <$> loops →
  find_loop v j loops' = find_loop v j loops.
Proof.
  revert j loops'. induction loops as [|dl rest IH]; intros j [|dl' rest'] Heq;
    try done.
  simpl in *. injection Heq as -> Hrest. by rewrite (IH (S j) rest').
Qed.

Lemma common_verts_from_ext i (ref_loops tgt_loops tgt_loops' : list BMLoop) :
  l_vert <$> tgt_loops' = l_vert <$> tgt_loops →
  common_verts_from i ref_loops tgt_loops'
  = common_verts_from i ref_loops tgt_loops.
Proof.
  intros Heq. revert i. induction ref_loops as [|sl rest IH]; intros i; [done|].
  simpl. rewrite (find_loop_ext _ _ tgt_loops tgt_loops' Heq).
  by rewrite IH.
Qed.

Lemma other_verts_from_ext i (loops loops' : list BMLoop) cvs :
  l_vert <$> loops' = l_vert <$> loops →
  other_verts_from i loops' cvs = other_verts_from i loops cvs.
Proof.
  revert i loops'. induction loops as [|sl rest IH]; intros i [|sl' rest'] Heq;
    try done.
  simpl in *. injection Heq as -> Hrest. by rewrite (IH (S i) rest').
Qed.

Lemma reference_info_ext bm bm' rf cvs others :
  bm_faces bm' !! rf = bm_faces bm !! rf → bm_co bm' = bm_co bm →
  reference_info bm' rf cvs others = reference_info bm rf cvs others.
Proof.
  intros Hrf Hco. unfold reference_info, read_uv, loop_uv. by rewrite Hrf, Hco.
Qed.

Lemma write_loops_lookup ws k :
  (∀ loops, write_loops ws loops !! k = loops !! k)
  ∨ (∃ u, ∀ loops, write_loops ws loops !! k = set_uv u <$> loops !! k).
Proof.
  induction ws as [|[l u] ws IH]; [by left|].
  assert (∀ loops, write_loops ((l, u) :: ws) loops
                   = write_loops ws (alter (set_uv u) l loops)) as Hcons by done.
  destruct IH as [Hid|[u' Hset]].
  - destruct (decide (l = k)) as [->|Hne].
    + right. exists u. intros loops.
      by rewrite Hcons, Hid, list_lookup_alter_eq.
    + left. intros loops. by rewrite Hcons, Hid, list_lookup_alter_ne.
  - right. exists u'. intros loops. rewrite Hcons, Hset, list_lookup_alter.
    case_decide; [subst|done]. by destruct (loops !! k).
Qed.

Lemma write_loops_idem ws loops :
  write_loops ws (write_loops ws loops) = write_loops ws loops.
Proof.
  apply list_eq. intros k.
  destruct (write_loops_lookup ws k) as [Hid|[u Hset]]; [by rewrite Hid|].
  rewrite !Hset. by destruct (loops !! k).
Qed.

Lemma writes_faces t ws bm :
  writes t ws bm
  = {| bm_faces := alter (alter_loops (write_loops ws)) t (bm_faces bm);
       bm_uv_layers := bm_uv_layers bm;
       bm_select_history := bm_select_history bm;
       bm_co := bm_co bm |}.
Proof.
  revert bm. induction ws as [|[l u] ws IH]; intros bm.
  - unfold writes, write_loops. simpl. destruct bm as [faces ? ? ?]. simpl.
    f_equal. symmetry. apply list_alter_id. by intros [].
  - change (writes t ((l, u) :: ws) bm) with (writes t ws (write_uv bm t l u)).
    rewrite IH. unfold write_uv. simpl. f_equal.
    rewrite list_alter_alter_eq. by apply list_alter_ext.
Qed.

Lemma writes_idem t ws bm : writes t ws (writes t ws bm) = writes t ws bm.
Proof.
  rewrite !writes_faces. simpl. f_equal. rewrite list_alter_alter_eq.
  apply list_alter_ext; [|done]. intros face _. unfold alter_loops. simpl.
  f_equal. apply write_loops_idem.
Qed.

Lemma apply_other_writes t bm uvs :
  apply_other t bm uvs = writes t (other_write <$> uvs) bm.
Proof. unfold apply_other, writes. by rewrite foldl_fmap. Qed.

(** An iteration that succeeded succeeds again on the mesh it left, and
    leaves it as it is. *)
Lemma set_face_idempotent bm props obj r t bm' :
  set_face bm props obj r t = inr bm' → set_face bm' props obj r t = inr bm'.
Proof.
  intros Hstep.
  pose proof (set_face_shape _ _ _ _ _ _ Hstep) as Hshape.
  destruct (set_face_inr _ _ _ _ _ _ Hstep)
    as [rf ref_face tgt_face c0 c1 ref h v
        Hr Hobj Hpos Hrf Htf Hcommon Hro Href Hto _].
  destruct (projection_writes _ _ _ _ _ _ _ _ _ Hstep Hpos Hrf Htf)
    as (c0' & c1' & ref' & h' & v' & u0 & u1 & Hne & Hcommon' & Href'
        & Hu0 & Hu1 & Hbm').
  rewrite Hcommon in Hcommon'. injection Hcommon' as <- <-.
  rewrite Href in Href'. injection Href' as <- <- <-.
  assert (bm_faces bm' !! rf = bm_faces bm !! rf) as Hrf'
    by by eapply set_face_other_face.
  destruct (same_shape_lookup _ _ _ _ Hshape Htf) as (tgt_face' & Htf' & Hts).
  assert (l_vert <$> f_loops tgt_face' = l_vert <$> f_loops tgt_face) as Hverts
    by (unfold face_shape, face_verts in Hts; congruence).
  pose proof Hshape as (_ & _ & _ & Hco).
  (* the stages of the first run *)
  assert (target_uvs (bm_co bm) ref h v (get_other_verts tgt_face [c0; c1])
          = inr (projected (bm_co bm) ref h v
                   <$> get_other_verts tgt_face [c0; c1])) as Huvs.
  { unfold set_face in Hstep.
    rewrite decide_False, decide_False in Hstep by (done || by intros ?).
    rewrite Hpos in Hstep. cbn [mbind abort_bind] in Hstep.
    unfold getitem in Hstep. rewrite Hrf, Htf in Hstep.
    cbn [mbind abort_bind] in Hstep. rewrite Hcommon in Hstep.
    rewrite decide_False, decide_False in Hstep by (done || simpl; lia).
    rewrite Href in Hstep. cbn [mbind abort_bind] in Hstep.
    rewrite decide_False in Hstep by done.
    destruct (target_uvs _ _ _ _ _) as [a|uvs] eqn:Huvs; [done|].
    by apply target_uvs_inr in Huvs as ->. }
  (* the second run *)
  unfold set_face.
  rewrite decide_False, decide_False by (done || by intros ?).
  rewrite (same_shape_length _ _ Hshape), Hpos. cbn [mbind abort_bind].
  unfold getitem. rewrite Hrf', Hrf, Htf'. cbn [mbind abort_bind].
  assert (get_common_verts ref_face tgt_face' = [c0; c1]) as ->
    by (unfold get_common_verts; by rewrite (common_verts_from_ext _ _ _ _ Hverts)).
  assert (get_other_verts tgt_face' [c0; c1] = get_other_verts tgt_face [c0; c1])
    as -> by (unfold get_other_verts; by rewrite (other_verts_from_ext _ _ _ _ Hverts)).
  rewrite decide_False, decide_False by (done || simpl; lia).
  rewrite (reference_info_ext bm bm') by done.
  rewrite Href. cbn [mbind abort_bind].
  rewrite decide_False by done. rewrite Hco, Huvs. cbn [mbind abort_bind mret abort_ret].
  f_equal.
  assert (loop_uv bm' rf (cv_ref_loop c0) = Some u0) as Hu0'
    by (unfold loop_uv in *; by rewrite Hrf').
  assert (loop_uv bm' rf (cv_ref_loop c1) = Some u1) as Hu1'
    by (unfold loop_uv in *; by rewrite Hrf').
  rewrite (apply_common_two _ _ _ _ _ _ _ Hne Hu0' Hu1').
  set (uvs := projected (bm_co bm) ref h v <$> get_other_verts tgt_face [c0; c1]) in *.
  set (ws := [(cv_tgt_loop c0, u0); (cv_tgt_loop c1, u1)] ++ (other_write <$> uvs)).
  assert (∀ m, apply_other t (write_uv (write_uv m t (cv_tgt_loop c0) u0) t
                                (cv_tgt_loop c1) u1) uvs = writes t ws m) as Hws.
  { intros m. rewrite apply_other_writes. unfold ws, writes.
    by rewrite foldl_app. }
  rewrite Hws. rewrite Hbm', Hws. apply writes_idem.
Qed.

(** X10: with a single target and set-and-refer off, a [Set] that finished
    can be repeated: the second execution finishes as well and leaves the
    mesh and the persisted state exactly as the first left them. *)
Theorem set_idempotent sc obj bm face :
  muv_texture_wrap_set_and_refer sc = false →
  select_targets sc bm = inr [face] →
  let o := MUV_OT_TextureWrap_Set_execute sc obj bm in
  ret o = FINISHED →
  MUV_OT_TextureWrap_Set_execute sc obj (out_bm o) = o.
Proof.
  intros Hopt Hsel o Hfin.
  assert (∃ bm1, set_face bm (muv_props sc) obj (ref_face_index (muv_props sc)) face
                 = inr bm1
                 ∧ o = finished bm1 (muv_props sc)) as (bm1 & Hstep & Ho).
  { unfold o, MUV_OT_TextureWrap_Set_execute in *.
    destruct (decide (bm_uv_layers bm = 0)); [done|].
    rewrite Hsel in *. simpl in *.
    destruct (set_face bm (muv_props sc) obj _ face) as [[]|bm1]; try done.
    exists bm1. by rewrite Hopt. }
  pose proof (set_face_shape _ _ _ _ _ _ Hstep) as Hshape.
  assert (bm_uv_layers bm ≠ 0) as Huv.
  { intros Huv. unfold o, MUV_OT_TextureWrap_Set_execute in Hfin.
    by rewrite decide_True in Hfin. }
  rewrite Ho. simpl. unfold MUV_OT_TextureWrap_Set_execute.
  rewrite decide_False by (destruct Hshape as (_ & -> & _); done).
  rewrite (select_targets_shape sc bm bm1 Hshape), Hsel. simpl.
  by rewrite (set_face_idempotent _ _ _ _ _ _ Hstep), Hopt.
Qed.

(** ** The checks on the vertices *)

(** X11: for faces that meet each of their vertices once, the number of
    entries of [common_verts] is the same whichever of the two faces is the
    reference, and is the number of vertices the faces share; the
    shared-vertex check rejects a pair in both directions or in none. *)
Theorem common_verts_symmetric ref_face tgt_face :
  wf_face ref_face → wf_face tgt_face →
  length (get_common_verts ref_face tgt_face)
  = length (get_common_verts tgt_face ref_face)
  ∧ length (get_common_verts ref_face tgt_face)
    = size (shared_verts ref_face tgt_face).
Proof.
  intros Hr Ht. rewrite !common_verts_count by done. split; [|done].
  unfold shared_verts. f_equal. apply set_eq. intros x.
  rewrite !elem_of_intersection. tauto.
Qed.

Lemma others_nonempty face (cvs : list CommonVert) :
  wf_face face → 3 ≤ length (f_loops face) → length cvs = 2 →
  get_other_verts face cvs ≠ [].
Proof.
  intros Hwf Hlen Hc Hnil.
  assert (∀ v, v ∈ face_verts face → v ∈ cv_vert <$> cvs) as Hsub.
  { intros v Hv. destruct (decide (v ∈ cv_vert <$> cvs)) as [|Hn]; [done|].
    exfalso. apply list_elem_of_fmap in Hv as (sl & -> & Hsl).
    apply list_elem_of_lookup_1 in Hsl as [k Hk].
    assert ({| ov_vert := l_vert sl; ov_loop := 0 + k |}
            ∈ get_other_verts face cvs) as Hin
      by (apply other_verts_from_elem; by exists k, sl).
    rewrite Hnil in Hin. by apply elem_of_nil in Hin. }
  apply (NoDup_submseteq _ _ Hwf), submseteq_length in Hsub.
  unfold face_verts in Hsub. rewrite !length_fmap in Hsub. lia.
Qed.

Lemma valid_faces_shape bm bm' : same_shape bm bm' → valid_faces bm → valid_faces bm'.
Proof.
  intros [Hfaces _] Hvalid. unfold valid_faces in *.
  assert (∀ faces : list BMFace,
            Forall (λ f, wf_face f ∧ 3 ≤ length (f_loops f)) faces
            ↔ Forall (λ s : bool * list nat, NoDup s.2 ∧ 3 ≤ length s.2)
                (face_shape <$> faces)) as Hiff.
  { intros faces. rewrite Forall_fmap. apply Forall_proper; [|done].
    intros f. unfold wf_face, face_shape, face_verts. simpl.
    by rewrite length_fmap. }
  apply Hiff. rewrite Hfaces. by apply Hiff.
Qed.

Lemma set_face_unshared bm props obj r t :
  valid_faces bm → set_face bm props obj r t ≠ inl (Cancel W_UNSHARED).
Proof.
  intros Hvalid H. unfold set_face in H.
  destruct (decide (r = Z.of_nat t)); [done|].
  destruct (decide (ref_obj props ≠ Some obj)); [done|].
  destruct (index_position _ r) as [a|rf] eqn:Hpos; cbn [mbind abort_bind] in H.
  { by apply index_position_inl in Hpos as ->. }
  destruct (getitem (bm_faces bm) rf) as [a|ref_face] eqn:Hrf;
    cbn [mbind abort_bind] in H.
  { by apply getitem_inl in Hrf as ->. }
  destruct (getitem (bm_faces bm) t) as [a|tgt_face] eqn:Htf;
    cbn [mbind abort_bind] in H.
  { by apply getitem_inl in Htf as ->. }
  apply getitem_inr in Hrf, Htf.
  destruct (Forall_lookup_1 _ _ _ _ Hvalid Hrf) as [Hwr Hlr].
  destruct (Forall_lookup_1 _ _ _ _ Hvalid Htf) as [Hwt Hlt].
  destruct (decide (length (get_common_verts ref_face tgt_face) ≠ 2)); [done|].
  assert (length (get_common_verts ref_face tgt_face) = 2) as Hlen by lia.
  destruct (decide (get_other_verts ref_face _ = [])) as [Hnil|_].
  { by apply others_nonempty in Hnil. }
  destruct (reference_info _ _ _ _) as [a|[[ref h] v]] eqn:Href;
    cbn [mbind abort_bind] in H.
  { by apply reference_info_inl in Href as ->. }
  destruct (decide (get_other_verts tgt_face _ = [])) as [Hnil|_].
  { by apply others_nonempty in Hnil. }
  destruct (target_uvs _ _ _ _ _) as [a|uvs] eqn:Huvs;
    cbn [mbind abort_bind] in H; [|done].
  by apply target_uvs_inl in Huvs as [-> _].
Qed.

Lemma set_faces_unshared bm props obj r t ts bm' :
  valid_faces bm →
  set_faces bm props obj r t ts ≠ inl (Cancel W_UNSHARED, bm').
Proof.
  revert bm r t. induction ts as [|face rest IH]; intros bm r t Hvalid; simpl;
    [done|].
  destruct (set_face bm props obj r face) as [a|bm1] eqn:Hstep.
  - intros [= -> <-]. by eapply set_face_unshared.
  - apply IH. eapply valid_faces_shape; [|done]. by eapply set_face_shape.
Qed.

(** X12: on a mesh whose faces have at least three vertices and meet each
    of them once, [Set] never reports "More than 1 vertex must be
    unshared": a pair that shares exactly two vertices leaves a vertex of
    each face unshared. *)
Theorem set_never_reports_unshared sc obj bm :
  valid_faces bm →
  reports (MUV_OT_TextureWrap_Set_execute sc obj bm)
  ≠ ["More than 1 vertex must be unshared"].
Proof.
  intros Hvalid. unfold MUV_OT_TextureWrap_Set_execute.
  case_decide; [done|].
  destruct (select_targets sc bm) as [a|ts] eqn:Hsel.
  { by destruct (select_targets_abort _ _ _ Hsel) as [-> | ->]. }
  destruct (set_faces _ _ _ _ _ ts) as [[a bm']|[bm' t']] eqn:Hrun.
  - destruct a as [w|e]; [|done]. simpl.
    intros [= Hmsg]. apply (message_inj w W_UNSHARED) in Hmsg as ->.
    by eapply set_faces_unshared.
  - destruct (muv_texture_wrap_set_and_refer sc); [destruct t'|]; done.
Qed.

(** ** [poll] *)

(** X13: outside console mode, a [poll] that allows an operator has seen
    the 3D view, exactly one editable object and edit mode, and for [Set] a
    reference object; [execute] then finds its object at [objs[0]].
    Whenever [Set] is allowed, [Refer] is. *)
Theorem poll_guarantees context :
  is_console_mode context = false →
  (MUV_OT_TextureWrap_Refer_poll context = Some true →
     is_valid_space context = true
     ∧ object_mode context = Some "EDIT"
     ∧ ∃ obj bm, get_uv_editable_objects context = [(obj, bm)]
         ∧ MUV_OT_TextureWrap_Refer_run context
           = inr (MUV_OT_TextureWrap_Refer_execute (ctx_scene context) obj bm)
         ∧ MUV_OT_TextureWrap_Set_run context
           = inr (MUV_OT_TextureWrap_Set_execute (ctx_scene context) obj bm))
  ∧ (MUV_OT_TextureWrap_Set_poll context = Some true →
     MUV_OT_TextureWrap_Refer_poll context = Some true
     ∧ ref_obj (muv_props (ctx_scene context)) ≠ None).
Proof.
  intros Hconsole.
  assert (MUV_OT_TextureWrap_Refer_poll context = Some true →
          is_valid_space context = true
          ∧ object_mode context = Some "EDIT"
          ∧ ∃ obj bm, get_uv_editable_objects context = [(obj, bm)]) as Hvalid.
  { unfold MUV_OT_TextureWrap_Refer_poll, _is_valid_context. rewrite Hconsole.
    destruct (is_valid_space context); [|done]. simpl.
    case_decide as Hlen; [done|].
    destruct (object_mode context) as [mode|]; [|done]. simpl.
    case_decide as Hmode; [done|]. intros _. split_and!; [done| |].
    - f_equal. by destruct (decide (mode = "EDIT")).
    - destruct (get_uv_editable_objects context) as [|[obj bm] [|? ?]];
        simpl in Hlen; try lia. by exists obj, bm. }
  split.
  - intros Hpoll. destruct (Hvalid Hpoll) as (Hspace & Hmode & obj & bm & Hobjs).
    split_and!; [done..|]. exists obj, bm.
    unfold MUV_OT_TextureWrap_Refer_run, MUV_OT_TextureWrap_Set_run, edited_object.
    by rewrite Hobjs.
  - unfold MUV_OT_TextureWrap_Set_poll, MUV_OT_TextureWrap_Refer_poll.
    rewrite Hconsole. by destruct (ref_obj _).
Qed.

(** X14: in console mode [poll] allows both operators whatever the
    context, and when there is no editable object both [execute] methods
    raise [IndexError] at [objs[0]]. *)
Theorem console_mode_skips_checks context :
  is_console_mode context = true →
  MUV_OT_TextureWrap_Refer_poll context = Some true
  ∧ MUV_OT_TextureWrap_Set_poll context = Some true
  ∧ (get_uv_editable_objects context = [] →
     MUV_OT_TextureWrap_Refer_run context = inl IndexError
     ∧ MUV_OT_TextureWrap_Set_run context = inl IndexError).
Proof.
  intros Hconsole.
  unfold MUV_OT_TextureWrap_Refer_poll, MUV_OT_TextureWrap_Set_poll,
    MUV_OT_TextureWrap_Refer_run, MUV_OT_TextureWrap_Set_run, edited_object.
  rewrite Hconsole. split_and!; [done..|]. by intros ->.
Qed.

(** X15: outside console mode [Set] is not allowed while no reference has
    been captured, and once a [Refer] has finished it is allowed exactly
    when [Refer] is. *)
Theorem set_poll_follows_refer context :
  is_console_mode context = false →
  (ref_obj (muv_props (ctx_scene context)) = None →
     MUV_OT_TextureWrap_Set_poll context = Some false)
  ∧ (∀ o, MUV_OT_TextureWrap_Refer_run context = inr o → ret o = FINISHED →
       MUV_OT_TextureWrap_Set_poll (context_with_props context (out_props o))
       = MUV_OT_TextureWrap_Refer_poll context).
Proof.
  intros Hconsole. split.
  - intros Hnone. unfold MUV_OT_TextureWrap_Set_poll. by rewrite Hconsole, Hnone.
  - intros o Hrun Hfin.
    unfold MUV_OT_TextureWrap_Refer_run, edited_object in Hrun.
    destruct (get_uv_editable_objects context) as [|[obj bm] rest]; [done|].
    injection Hrun as <-.
    destruct (refer_execute_cases (ctx_scene context) obj bm)
      as [[_ Ho]|[(_ & _ & Ho)|(face & f & _ & _ & _ & _ & Ho)]];
      rewrite Ho in *; try done.
Qed.

(** ** The targets of sequence mode *)

Lemma history_faces_sublist bm :
  BMFaceRef <$> history_faces bm `sublist_of` bm_select_history bm.
Proof.
  unfold history_faces. induction (bm_select_history bm) as [|hist rest IH];
    [done|].
  simpl. destruct hist as [v|e|f]; try by apply sublist_cons.
  destruct (bm_faces bm !! f) as [face|]; [|by apply sublist_cons].
  destruct (f_select face); [|by apply sublist_cons].
  simpl. by apply sublist_skip.
Qed.

(** X16: in sequence mode the targets of [Set] are the faces of the
    selection history that are selected, in the order of the history;
    vertices, edges and faces no longer selected are passed over.  With no
    such face [Set] is cancelled and changes nothing. *)
Theorem sequence_targets_follow_history sc obj bm :
  muv_texture_wrap_selseq sc = true →
  (∀ ts, select_targets sc bm = inr ts →
     ts = history_faces bm
     ∧ BMFaceRef <$> ts `sublist_of` bm_select_history bm
     ∧ ∀ t, t ∈ ts ↔
         BMFaceRef t ∈ bm_select_history bm
         ∧ ∃ face, bm_faces bm !! t = Some face ∧ f_select face = true)
  ∧ (bm_uv_layers bm ≠ 0 →
     (∀ t face, BMFaceRef t ∈ bm_select_history bm →
        bm_faces bm !! t = Some face → f_select face = false) →
     MUV_OT_TextureWrap_Set_execute sc obj bm
     = cancelled W_SELECT_MORE_THAN_ONE bm (muv_props sc)).
Proof.
  intros Hmode.
  assert (∀ t, t ∈ history_faces bm ↔
            BMFaceRef t ∈ bm_select_history bm
            ∧ ∃ face, bm_faces bm !! t = Some face ∧ f_select face = true) as Helem.
  { intros t. unfold history_faces. rewrite list_elem_of_omap. split.
    - intros (hist & Hin & Hsome). destruct hist as [v|e|f]; try done.
      destruct (bm_faces bm !! f) as [face|] eqn:Hf; [|done].
      destruct (f_select face) eqn:Hs; [|done].
      injection Hsome as <-. split; [done|]. by exists face.
    - intros (Hin & face & Hf & Hs). exists (BMFaceRef t).
      split; [done|]. by rewrite Hf, Hs. }
  split.
  - intros ts. unfold select_targets. rewrite Hmode.
    case_decide; [done|]. intros [= <-].
    split_and!; [done|apply history_faces_sublist|apply Helem].
  - intros Huv Hnone.
    assert (history_faces bm = []) as Hnil.
    { apply elem_of_nil_inv. intros t (Hin & face & Hf & Hs)%Helem.
      specialize (Hnone t face Hin Hf). congruence. }
    unfold MUV_OT_TextureWrap_Set_execute, select_targets.
    rewrite decide_False by done. rewrite Hmode, Hnil. done.
Qed.

(** ** Single mode *)

(** X17: outside sequence mode [Set] is all or nothing: unless it finishes
    it leaves the mesh and the persisted state exactly as they were. *)
Theorem single_mode_atomic sc obj bm :
  muv_texture_wrap_selseq sc = false →
  let o := MUV_OT_TextureWrap_Set_execute sc obj bm in
  ret o ≠ FINISHED → out_bm o = bm ∧ out_props o = muv_props sc.
Proof.
  intros Hmode o Hret. unfold o in *. clear o.
  unfold MUV_OT_TextureWrap_Set_execute in *.
  case_decide; [done|].
  destruct (select_targets sc bm) as [a|ts] eqn:Hsel; [by destruct a|].
  assert (∃ face, ts = [face]) as [face ->].
  { revert Hsel. unfold select_targets. rewrite Hmode.
    case_decide; [done|]. intros [= <-].
    destruct (selected_faces bm) as [|x [|y l]]; simpl in *; try lia.
    by exists x. }
  simpl in *.
  destruct (set_face bm (muv_props sc) obj _ face) as [a|bm1]; [by destruct a|].
  by destruct (muv_texture_wrap_set_and_refer sc).
Qed.

(** ** What a finished [Set] has checked *)

Lemma same_shape_sym bm bm' : same_shape bm bm' → same_shape bm' bm.
Proof. intros (? & ? & ? & ?). by unfold same_shape. Qed.

Lemma shared_verts_shape f1 f1' f2 f2' :
  face_shape f1' = face_shape f1 → face_shape f2' = face_shape f2 →
  shared_verts f1' f2' = shared_verts f1 f2.
Proof.
  unfold face_shape, shared_verts. intros [= _ ->] [= _ ->]. done.
Qed.

Lemma set_face_checked bm props obj r t bm' :
  set_face bm props obj r t = inr bm' →
  ref_obj props = Some obj
  ∧ ∃ rf ref_face tgt_face,
      index_position (length (bm_faces bm)) r = inr rf ∧ rf ≠ t
      ∧ bm_faces bm !! rf = Some ref_face ∧ bm_faces bm !! t = Some tgt_face
      ∧ length (get_common_verts ref_face tgt_face) = 2.
Proof.
  intros Hstep.
  destruct (set_face_inr _ _ _ _ _ _ Hstep)
    as [rf ref_face tgt_face c0 c1 ref h v
        Hr Hobj Hpos Hrf Htf Hcommon Hro Href Hto _].
  destruct (projection_writes _ _ _ _ _ _ _ _ _ Hstep Hpos Hrf Htf)
    as (_ & _ & _ & _ & _ & _ & _ & Hne & _).
  split; [done|]. exists rf, ref_face, tgt_face. by rewrite Hcommon.
Qed.

Lemma set_faces_checked bm0 bm props obj r t ts bm' t' :
  same_shape bm0 bm → Forall wf_face (bm_faces bm0) →
  set_faces bm props obj r t ts = inr (bm', t') →
  ∀ k r' t'', chain_pairs r ts !! k = Some (r', t'') →
    ref_obj props = Some obj
    ∧ ∃ rf f1 f2,
        index_position (length (bm_faces bm0)) r' = inr rf ∧ rf ≠ t''
        ∧ bm_faces bm0 !! rf = Some f1 ∧ bm_faces bm0 !! t'' = Some f2
        ∧ size (shared_verts f1 f2) = 2.
Proof.
  intros Hshape Hwf. revert bm r t Hshape.
  induction ts as [|face rest IH]; intros bm r t Hshape Hrun k r' t'' Hk; [done|].
  simpl in Hrun.
  destruct (set_face bm props obj r face) as [a|bm1] eqn:Hstep; [done|].
  rewrite chain_pairs_cons in Hk. destruct k as [|k]; simpl in Hk.
  - injection Hk as <- <-.
    destruct (set_face_checked _ _ _ _ _ _ Hstep)
      as (Hobj & rf & ref_face & tgt_face & Hpos & Hne & Hrf & Htf & Hlen).
    split; [done|].
    apply same_shape_sym in Hshape.
    destruct (same_shape_lookup _ _ _ _ Hshape Hrf) as (f1 & Hf1 & Hs1).
    destruct (same_shape_lookup _ _ _ _ Hshape Htf) as (f2 & Hf2 & Hs2).
    exists rf, f1, f2. rewrite (same_shape_length _ _ Hshape).
    split_and!; try done.
    rewrite (shared_verts_shape ref_face f1 tgt_face f2) by done.
    rewrite <- common_verts_count; [done|].
    pose proof (Forall_lookup_1 _ _ _ _ Hwf Hf1) as Hwf1.
    unfold wf_face in *. unfold face_shape in Hs1. congruence.
  - eapply (IH bm1); [|done..].
    eapply same_shape_trans; [done|]. by eapply set_face_shape.
Qed.

(** X18: on a mesh whose faces meet each of their vertices once, a [Set]
    that finishes has found the reference object to be the object edited,
    and every pair of the chain, the persisted reference with the first
    target and each target with the next, to be two different faces of the
    mesh that share exactly two vertices. *)
Theorem set_finished_checked sc obj bm :
  Forall wf_face (bm_faces bm) →
  let props := muv_props sc in
  let o := MUV_OT_TextureWrap_Set_execute sc obj bm in
  ret o = FINISHED →
  bm_uv_layers bm ≠ 0 ∧ ref_obj props = Some obj
  ∧ ∃ ts, select_targets sc bm = inr ts
      ∧ ∀ k r t, chain_pairs (ref_face_index props) ts !! k = Some (r, t) →
          ∃ rf f1 f2,
            index_position (length (bm_faces bm)) r = inr rf ∧ rf ≠ t
            ∧ bm_faces bm !! rf = Some f1 ∧ bm_faces bm !! t = Some f2
            ∧ size (shared_verts f1 f2) = 2.
Proof.
  intros Hwf props o. unfold o, MUV_OT_TextureWrap_Set_execute.
  case_decide as Huv; [done|].
  destruct (select_targets sc bm) as [a|ts] eqn:Hsel; [by destruct a|].
  destruct (set_faces _ _ _ _ _ ts) as [[a bm']|[bm' t']] eqn:Hrun;
    [by destruct a|].
  intros _.
  pose proof (set_faces_checked bm bm _ _ _ _ _ _ _ (same_shape_refl bm) Hwf Hrun)
    as Hchecked.
  split; [done|].
  destruct (select_targets_cons _ _ _ Hsel) as (face & rest & ->).
  split.
  - by destruct (Hchecked 0 (ref_face_index props) face).
  - exists (face :: rest). split; [done|]. intros k r t Hk.
    by destruct (Hchecked k r t Hk).
Qed.

End Operators_properties.

(** * The properties on the mesh of squares *)

Section Examples.
Import Squares.
#[local] Existing Instance Float64.mathutils.

(** Face 1 is the only face selected; the reference is face 0 of the
    object being edited. *)
Lemma refer_failure_keeps_state_witness :
  let o := MUV_OT_TextureWrap_Refer_execute (scene 0 (Some 7) true false) 7
             (mesh 1 [1; 3]) in
  length (selected_faces (mesh 1 [1; 3])) ≠ 1
  ∧ ret o = CANCELLED
  ∧ ref_face_index (out_props o) = 0%Z
  ∧ ref_obj (out_props o) = Some 7.
Proof.
  assert (length (selected_faces (mesh 1 [1; 3])) ≠ 1) as Hsel
    by (vm_compute; lia).
  split; [exact Hsel|].
  apply (refer_failure_keeps_state (scene 0 (Some 7) true false) 7 (mesh 1 [1; 3])).
  right. exact Hsel.
Defined.

(** C3, as the specification has it, fails: with set-and-refer on, a
    successful [Set] moves the persisted reference from face 0 to
    face 1. *)
Lemma set_moves_reference_face :
  let sc := scene 0 (Some 7) true false in
  let o := MUV_OT_TextureWrap_Set_execute sc 7 (mesh 1 [1]) in
  ret o = FINISHED
  ∧ ref_face_index (muv_props sc) = 0%Z
  ∧ ref_face_index (out_props o) = 1%Z
  ∧ out_props o ≠ muv_props sc.
Proof. vm_compute. by split_and!. Qed.

(** C6, as the specification has it, fails: in the sequence of faces 1
    and 2 the projection of face 1 succeeds and that of face 2 does not;
    the persisted reference stays face 0 and does not become face 1. *)
Lemma early_termination_keeps_old_reference :
  let sc := scene 0 (Some 7) true true in
  let bm := mesh 1 [1; 2] in
  let o := MUV_OT_TextureWrap_Set_execute sc 7 bm in
  select_targets sc bm = inr [1; 2]
  ∧ set_faces bm (muv_props sc) 7 0 None [1]
    = inr (mesh_after (muv_props sc) 7 bm [1], Some 1)
  ∧ set_face (mesh_after (muv_props sc) 7 bm [1]) (muv_props sc) 7 1 2
    = inl (Cancel W_TWO_SHARED)
  ∧ ret o = CANCELLED
  ∧ uvs_of (out_bm o) 1 = [[1; 0]; [0; 0]; [0; -1]; [1; -1]]%float
  ∧ ref_face_index (out_props o) = 0%Z
  ∧ ref_face_index (out_props o) ≠ 1%Z.
Proof. vm_compute. by split_and!. Qed.

Lemma set_and_refer_needs_completion_witness :
  let sc := scene 0 (Some 7) true true in
  let o := MUV_OT_TextureWrap_Set_execute sc 7 (mesh 1 [1; 2]) in
  o = aborted (Cancel W_TWO_SHARED) (mesh_after (muv_props sc) 7 (mesh 1 [1; 2]) [1])
        (muv_props sc)
  ∧ ret o ≠ FINISHED
  ∧ ref_face_index (out_props o) = 0%Z.
Proof.
  destruct (set_and_refer_needs_completion (scene 0 (Some 7) true true) 7
              (mesh 1 [1; 2]) eq_refl eq_refl) as [Hearly _].
  apply (Hearly [1] 2 [] _ (Some 1)).
  - vm_compute. lia.
  - vm_compute. reflexivity.
  - vm_compute. reflexivity.
  - vm_compute. reflexivity.
Defined.

(** C9, as the specification has it, fails: the reference was captured on
    object 8 and object 7 is edited, but the selected face has the index
    of the reference face and the warning is that of the check that comes
    first. *)
Lemma cross_object_other_warning :
  let sc := scene 0 (Some 8) true false in
  let o := MUV_OT_TextureWrap_Set_execute sc 7 (mesh 1 [0]) in
  ref_obj (muv_props sc) ≠ Some 7
  ∧ reports o = ["Must select different face"]
  ∧ reports o ≠ ["Object must be same"].
Proof. vm_compute. by split_and!. Qed.

Lemma set_cross_object_cancelled_witness :
  let sc := scene 0 (Some 8) true false in
  let o := MUV_OT_TextureWrap_Set_execute sc 7 (mesh 1 [1]) in
  ret o = CANCELLED ∧ out_bm o = mesh 1 [1] ∧ out_props o = muv_props sc
  ∧ reports o = ["Object must be same"].
Proof.
  destruct (set_cross_object_cancelled (scene 0 (Some 8) true false) 7 (mesh 1 [1]))
    as (Hret & Hbm & Hprops & _ & Hmsg & _); [by vm_compute|].
  split_and!; [exact Hret|exact Hbm|exact Hprops|].
  apply (Hmsg ltac:(vm_compute; lia) 1 []).
  - vm_compute. reflexivity.
  - vm_compute. lia.
Defined.

Lemma set_chain_propagation_witness :
  let sc := scene 0 (Some 7) true true in
  let o := MUV_OT_TextureWrap_Set_execute sc 7 (mesh 1 [1; 3]) in
  chain_pairs 0 [1; 3] = [(0%Z, 1); (1%Z, 3)]
  ∧ ret o = FINISHED
  ∧ out_bm o = mesh_after (muv_props sc) 7 (mesh 1 [1; 3]) [1; 3].
Proof.
  split; [reflexivity|].
  destruct (set_chain_propagation (scene 0 (Some 7) true true) 7 (mesh 1 [1; 3])
              [1; 3]) as (_ & _ & _ & Hrun).
  - vm_compute. lia.
  - vm_compute. reflexivity.
  - revert Hrun.
    destruct (project_chain _ _ _ _) as [[a bm']|bm'] eqn:Hchain;
      [by vm_compute in Hchain|].
    intros [Hret ->]. split; [exact Hret|].
    vm_compute in Hchain. injection Hchain as <-. by vm_compute.
Defined.


Lemma set_face_copies_shared_uv_witness :
  let props := {| ref_face_index := 0; ref_obj := Some 7 |} in
  let bm' := mesh_after props 7 (mesh 1 [1]) [1] in
  size (shared_verts (face0 false) (face1 true)) = 2
  ∧ loop_uv bm' 1 1 = Some [0; 0]%float ∧ loop_uv bm' 0 0 = Some [0; 0]%float
  ∧ loop_uv bm' 1 0 = Some [1; 0]%float ∧ loop_uv bm' 0 1 = Some [1; 0]%float.
Proof.
  intros props bm'.
  destruct (set_face_copies_shared_uv (mesh 1 [1]) props 7 0 1 bm' 0
              (face0 false) (face1 true)) as [Hsize Hcopy].
  - by vm_compute.
  - reflexivity.
  - reflexivity.
  - reflexivity.
  - unfold wf_face. apply (bool_decide_unpack _). by vm_compute.
  - unfold wf_face. apply (bool_decide_unpack _). by vm_compute.
  - destruct (Hcopy 0 1 _ _ eq_refl eq_refl eq_refl) as (H00 & H01 & _).
    destruct (Hcopy 1 0 _ _ eq_refl eq_refl eq_refl) as (H10 & H11 & _).
    split_and!; [exact Hsize|exact H00|exact H01|exact H10|exact H11].
Defined.

Lemma set_rejects_shared_count_witness :
  let sc := scene 0 (Some 7) true true in
  let o := MUV_OT_TextureWrap_Set_execute sc 7 (mesh 1 [1; 2]) in
  ret o = CANCELLED
  ∧ reports o = ["2 vertices must be shared among faces"]
  ∧ out_bm o = mesh_after (muv_props sc) 7 (mesh 1 [1; 2]) [1].
Proof.
  intros sc o.
  edestruct (set_rejects_shared_count sc 7 (mesh 1 [1; 2]) [1] 2 []
               (mesh_after (muv_props sc) 7 (mesh 1 [1; 2]) [1]) (Some 1) 1)
    as (_ & Hret & Hmsg & Hbm).
  - vm_compute. lia.
  - by vm_compute.
  - by vm_compute.
  - vm_compute. lia.
  - reflexivity.
  - by vm_compute.
  - reflexivity.
  - reflexivity.
  - unfold wf_face. apply (bool_decide_unpack _). by vm_compute.
  - vm_compute. lia.
  - split_and!; [exact Hret|exact Hmsg|exact Hbm].
Defined.

(** Face 4 as the reference: the first order of the shared edge gives a
    zero offset along the edge, the second does not. *)
Lemma degenerate_edge_guard_witness :
  let props := {| ref_face_index := 4; ref_obj := Some 7 |} in
  let ref := shared_edge (co 0) (co 1) [0; 0]%float [1; 0]%float (co 3) in
  is_degenerate (decompose (co 0) (co 1) (co 3)) = true
  ∧ is_degenerate (decompose (co 1) (co 0) (co 3)) = false
  ∧ cv0 ref = co 1 ∧ cv1 ref = co 0
  ∧ cuv0 ref = [1; 0]%float ∧ cuv1 ref = [0; 0]%float
  ∧ fis_zero (vlength (ref_vdiff ref)) = false
  ∧ fis_zero (vlength (ref_hdiff ref)) = false
  ∧ set_face (mesh 1 [1]) props 7 4 1 ≠ inl (Raise ZeroDivisionError).
Proof.
  intros props ref.
  assert (is_degenerate (decompose (co 0) (co 1) (co 3)) = true) as Hfirst
    by by vm_compute.
  assert (is_degenerate (decompose (co 1) (co 0) (co 3)) = false) as Hswap
    by by vm_compute.
  destruct (degenerate_edge_guard (mesh 1 [1]) props 7 4 1 4
              (face4 false) (face1 true)
              {| cv_vert := 0; cv_ref_loop := 0; cv_tgt_loop := 1 |}
              {| cv_vert := 1; cv_ref_loop := 1; cv_tgt_loop := 0 |}
              {| ov_vert := 3; ov_loop := 2 |} [])
    as [Hguard Hsafe].
  - reflexivity.
  - reflexivity.
  - reflexivity.
  - by vm_compute.
  - by vm_compute.
  - right. exact Hswap.
  - destruct (Hguard [0; 0]%float [1; 0]%float) as (Hswapped & Hv & Hh & _).
    destruct (Hswapped Hfirst) as (H0 & H1 & Hu0 & Hu1 & _).
    split_and!; [exact Hfirst|exact Hswap|exact H0|exact H1|exact Hu0|exact Hu1
                |exact Hv|exact Hh|exact Hsafe].
Defined.

Lemma float_one_not_zero : 1%float ≠ 0%float.
Proof.
  intros H. apply (f_equal (λ x, PrimFloat.eqb x 0)) in H.
  vm_compute in H. discriminate H.
Qed.

(** C5, as the specification has it, fails: for vertex 4 of face 1 the
    offset along the shared edge has a dot product of exactly zero with
    the edge, the three-valued sign of it is 0, and the sign factor of
    the projection is 1. *)
Lemma sign_factor_of_zero_is_one :
  let d := vdot tgt_vdiff4 (vsub (cv1 ref01) (cv0 ref01)) in
  fis_zero d = true
  ∧ Float64.sign3 d = 0%float
  ∧ sign_factor ref01 tgt_vdiff4 = 1%float
  ∧ sign_factor ref01 tgt_vdiff4 ≠ Float64.sign3 d.
Proof.
  vm_compute. split_and!; [done..|]. apply float_one_not_zero.
Qed.

Lemma set_face_projects_unshared_witness :
  let props := {| ref_face_index := 0; ref_obj := Some 7 |} in
  let bm' := mesh_after props 7 (mesh 1 [1]) [1] in
  loop_uv bm' 1 2 = Some (wrap_uv copysign1 ref01 [0; 1]%float [1; 0]%float (co 4))
  ∧ wrap_uv copysign1 ref01 [0; 1]%float [1; 0]%float (co 4) = [0; -1]%float.
Proof.
  intros props bm'. split; [|by vm_compute].
  destruct (set_face_projects_unshared (mesh 1 [1]) props 7 0 1 bm' 0
              (face0 false) (face1 true))
    as (c0 & c1 & o0 & others & a_uv & b_uv & ouv0 & ref & h & v
        & Hcommon & Hothers & Ha & Hb & Ho & Href & Huv & Hproj & _).
  - by vm_compute.
  - reflexivity.
  - reflexivity.
  - reflexivity.
  - vm_compute in Hcommon. injection Hcommon as <- <-.
    vm_compute in Hothers. injection Hothers as <- _.
    vm_compute in Ha, Hb, Ho.
    injection Ha as <-. injection Hb as <-. injection Ho as <-.
    assert (ref = ref01) as -> by (rewrite Href; by vm_compute).
    vm_compute in Huv. injection Huv as -> ->.
    apply (Hproj 2 (blank 4)); [reflexivity|].
    apply (bool_decide_unpack _). by vm_compute.
Defined.


End Examples.

(** * Further properties on the mesh of squares *)

Section Operators_examples.
Import Squares Scenes.
#[local] Existing Instance Float64.mathutils.

Lemma set_keeps_unselected_faces_witness :
  bm_faces (out_bm (MUV_OT_TextureWrap_Set_execute (scene 0 (Some 7) true true) 7
                      (mesh 1 [1; 3]))) !! 0
  = Some (face0 false).
Proof.
  apply (set_keeps_unselected_faces (scene 0 (Some 7) true true) 7 (mesh 1 [1; 3])
           0 (face0 false)); reflexivity.
Defined.

Lemma set_keeps_reference_valid_witness :
  let o := MUV_OT_TextureWrap_Set_execute (scene 0 (Some 7) true true) 7
             (mesh 1 [1; 3]) in
  ref_face_index (out_props o) = 3%Z ∧ valid_reference (out_bm o) (out_props o).
Proof.
  split; [by vm_compute|].
  apply (set_keeps_reference_valid (scene 0 (Some 7) true true) 7 (mesh 1 [1; 3])).
  right. simpl. lia.
Defined.


Lemma set_stale_reference_raises_witness :
  MUV_OT_TextureWrap_Set_execute (scene 9 (Some 7) true false) 7 (mesh 1 [1])
  = raised IndexError (mesh 1 [1]) (muv_props (scene 9 (Some 7) true false)).
Proof.
  apply (set_stale_reference_raises (scene 9 (Some 7) true false) 7 (mesh 1 [1]) [1]).
  - vm_compute. lia.
  - by vm_compute.
  - reflexivity.
  - simpl. lia.
Defined.

Lemma refer_then_set_cancels_witness :
  let sc := scene (-1) None true false in
  let o1 := MUV_OT_TextureWrap_Refer_execute sc 7 (mesh 1 [1]) in
  out_props o1 = {| ref_face_index := 1; ref_obj := Some 7 |}
  ∧ MUV_OT_TextureWrap_Set_execute (with_props sc (out_props o1)) 7 (out_bm o1)
    = cancelled W_SELECT_DIFFERENT (mesh 1 [1]) (out_props o1).
Proof.
  split; [by vm_compute|].
  apply (refer_then_set_cancels (scene (-1) None true false) 7 (mesh 1 [1]));
    by vm_compute.
Defined.

Lemma set_then_set_cancels_witness :
  let sc := scene 0 (Some 7) true false in
  let o1 := MUV_OT_TextureWrap_Set_execute sc 7 (mesh 1 [1]) in
  MUV_OT_TextureWrap_Set_execute (with_props sc (out_props o1)) 7 (out_bm o1)
  = cancelled W_SELECT_DIFFERENT (out_bm o1) (out_props o1).
Proof.
  apply (set_then_set_cancels (scene 0 (Some 7) true false) 7 (mesh 1 [1]));
    by vm_compute.
Defined.

Lemma set_idempotent_witness :
  let sc := scene 0 (Some 7) false false in
  let o := MUV_OT_TextureWrap_Set_execute sc 7 (mesh 1 [1]) in
  uvs_of (out_bm o) 1 = [[1; 0]; [0; 0]; [0; -1]; [1; -1]]%float
  ∧ MUV_OT_TextureWrap_Set_execute sc 7 (out_bm o) = o.
Proof.
  split; [by vm_compute|].
  apply (set_idempotent (scene 0 (Some 7) false false) 7 (mesh 1 [1]) 1);
    by vm_compute.
Defined.

Lemma common_verts_symmetric_witness :
  length (get_common_verts (face0 false) (face1 true))
  = length (get_common_verts (face1 true) (face0 false))
  ∧ length (get_common_verts (face0 false) (face1 true))
    = size (shared_verts (face0 false) (face1 true)).
Proof.
  apply (common_verts_symmetric (face0 false) (face1 true));
    unfold wf_face; apply (bool_decide_unpack _); by vm_compute.
Defined.

Lemma squares_valid_faces sel : valid_faces (mesh 1 sel).
Proof.
  unfold valid_faces, mesh. simpl.
  repeat (apply Forall_cons; split;
            [split; [unfold wf_face; apply (bool_decide_unpack _); by vm_compute
                    |simpl; lia]|]).
  apply Forall_nil_2.
Defined.

Lemma set_never_reports_unshared_witness :
  reports (MUV_OT_TextureWrap_Set_execute (scene 0 (Some 7) true true) 7
             (mesh 1 [1; 2]))
  ≠ ["More than 1 vertex must be unshared"].
Proof.
  apply (set_never_reports_unshared (scene 0 (Some 7) true true) 7 (mesh 1 [1; 2])).
  apply squares_valid_faces.
Defined.

Lemma poll_guarantees_witness :
  let context := view3d false [(7, mesh 1 [1])] (scene 0 (Some 7) true false) in
  MUV_OT_TextureWrap_Set_poll context = Some true
  ∧ MUV_OT_TextureWrap_Refer_poll context = Some true
  ∧ MUV_OT_TextureWrap_Set_run context
    = inr (MUV_OT_TextureWrap_Set_execute (scene 0 (Some 7) true false) 7
             (mesh 1 [1])).
Proof.
  intros context.
  destruct (poll_guarantees context eq_refl) as [Hrefer Hset].
  assert (MUV_OT_TextureWrap_Set_poll context = Some true) as Hpoll by reflexivity.
  destruct (Hset Hpoll) as [Hrpoll _].
  destruct (Hrefer Hrpoll) as (_ & _ & obj & bm & Hobjs & _ & Hrun).
  injection Hobjs as <- <-.
  split_and!; [exact Hpoll|exact Hrpoll|exact Hrun].
Defined.

Lemma console_mode_skips_checks_witness :
  let context := view3d true [] (scene (-1) None true false) in
  MUV_OT_TextureWrap_Set_poll context = Some true
  ∧ MUV_OT_TextureWrap_Set_run context = inl IndexError.
Proof.
  intros context.
  destruct (console_mode_skips_checks context eq_refl) as (_ & Hpoll & Hrun).
  destruct (Hrun eq_refl) as [_ Hset].
  split; [exact Hpoll|exact Hset].
Defined.

Lemma set_poll_follows_refer_witness :
  let context := view3d false [(7, mesh 1 [1])] (scene (-1) None true false) in
  MUV_OT_TextureWrap_Set_poll context = Some false
  ∧ MUV_OT_TextureWrap_Set_poll
      (context_with_props context {| ref_face_index := 1; ref_obj := Some 7 |})
    = Some true.
Proof.
  intros context.
  destruct (set_poll_follows_refer context eq_refl) as [Hbefore Hafter].
  split; [exact (Hbefore eq_refl)|].
  exact (Hafter (MUV_OT_TextureWrap_Refer_execute (ctx_scene context) 7 (mesh 1 [1]))
           eq_refl eq_refl).
Defined.

(** Face 3 was selected before face 1; vertex 2 and face 2, which is not
    selected, are in the history as well. *)
Lemma sequence_targets_follow_history_witness :
  let bm := {| bm_faces := bm_faces (mesh 1 [3; 1]);
               bm_uv_layers := 1;
               bm_select_history := [BMFaceRef 3; BMVert 2; BMFaceRef 2; BMFaceRef 1];
               bm_co := co |} in
  select_targets (scene 0 (Some 7) true true) bm = inr [3; 1]
  ∧ [3; 1] = history_faces bm.
Proof.
  intros bm.
  assert (select_targets (scene 0 (Some 7) true true) bm = inr [3; 1]) as Hsel
    by by vm_compute.
  split; [exact Hsel|].
  destruct (sequence_targets_follow_history (scene 0 (Some 7) true true) 7 bm eq_refl)
    as [Htargets _].
  by destruct (Htargets [3; 1] Hsel) as (Heq & _).
Defined.

Lemma single_mode_atomic_witness :
  let o := MUV_OT_TextureWrap_Set_execute (scene 0 (Some 7) true false) 7
             (mesh 1 [2]) in
  reports o = ["2 vertices must be shared among faces"]
  ∧ out_bm o = mesh 1 [2]
  ∧ out_props o = muv_props (scene 0 (Some 7) true false).
Proof.
  split; [by vm_compute|].
  apply (single_mode_atomic (scene 0 (Some 7) true false) 7 (mesh 1 [2]));
    [reflexivity|]. vm_compute. discriminate.
Defined.

Lemma squares_wf sel : Forall wf_face (bm_faces (mesh 1 sel)).
Proof.
  eapply Forall_impl; [apply squares_valid_faces|]. by intros f [Hwf _].
Defined.

Lemma set_finished_checked_witness :
  let sc := scene 0 (Some 7) true true in
  ret (MUV_OT_TextureWrap_Set_execute sc 7 (mesh 1 [1; 3])) = FINISHED
  ∧ ∃ ts, select_targets sc (mesh 1 [1; 3]) = inr ts
      ∧ ∀ k r t, chain_pairs 0 ts !! k = Some (r, t) →
          ∃ rf f1 f2,
            index_position (length (bm_faces (mesh 1 [1; 3]))) r = inr rf ∧ rf ≠ t
            ∧ bm_faces (mesh 1 [1; 3]) !! rf = Some f1
            ∧ bm_faces (mesh 1 [1; 3]) !! t = Some f2
            ∧ size (shared_verts f1 f2) = 2.
Proof.
  intros sc.
  assert (ret (MUV_OT_TextureWrap_Set_execute sc 7 (mesh 1 [1; 3])) = FINISHED)
    as Hfin by by vm_compute.
  split; [exact Hfin|].
  destruct (set_finished_checked sc 7 (mesh 1 [1; 3]) (squares_wf [1; 3]) Hfin)
    as (_ & _ & Hchain).
  exact Hchain.
Defined.

End Operators_examples.
